(** * tejolote: snapshot delta, run watcher, GCS store driver, start command

    A shallow embedding of the parts of tejolote that decide how build
    artifacts are discovered and attested:

    - [Delta] (pkg/watcher): the directed difference of two storage snapshots;
    - [Watch] (pkg/watcher): the poll loop over a build run;
    - [syncGCSPrefix] and [Snap] (pkg/store/driver, GCS driver);
    - the VCS material block of [tejolote start attestation] (internal/cmd).

    Go maps are [gmap]s; the order in which a Go [range] statement walks a
    map is not fixed by the language, so every function that ranges over a
    map takes the order as a [RangeOrder]. Loops that wait on the outside
    world ([Watch], the recursive prefix listing) carry fuel. *)

From Stdlib Require Import ZArith Ascii.
From stdpp Require Import gmap strings list fin_maps.

(** ** Go strings *)

(** The functions of Go's [strings] package that the sources call. A Go
    string is a sequence of bytes, as is a Rocq [string]. *)
Module GoStrings.

(** [strings.HasPrefix(s, prefix)]. *)
Fixpoint HasPrefix (s pre : string) {struct pre} : bool :=
  match pre, s with
  | EmptyString, _ => true
  | String _ _, EmptyString => false
  | String b pre', String a s' => if decide (a = b) then HasPrefix s' pre' else false
  end.

(** [s[n:]] for [n <= len(s)]. *)
Fixpoint drop (n : nat) (s : string) : string :=
  match n, s with
  | O, _ => s
  | S n', String _ s' => drop n' s'
  | S _, EmptyString => EmptyString
  end.

(** [s[:n]] for [n <= len(s)]. *)
Fixpoint take (n : nat) (s : string) : string :=
  match n, s with
  | O, _ => EmptyString
  | S n', String a s' => String a (take n' s')
  | S _, EmptyString => EmptyString
  end.

(** [strings.TrimPrefix(s, prefix)]: [s] without the leading [prefix], or
    [s] itself when it does not start with it. *)
Definition TrimPrefix (s pre : string) : string :=
  if HasPrefix s pre then drop (String.length pre) s else s.

(** [strings.HasSuffix(s, suffix)]:
    [len(s) >= len(suffix) && s[len(s)-len(suffix):] == suffix]. *)
Definition HasSuffix (s suf : string) : bool :=
  bool_decide ((String.length suf ≤ String.length s)%nat
               ∧ drop (String.length s - String.length suf) s = suf).

(** [strings.TrimSuffix(s, suffix)]. *)
Definition TrimSuffix (s suf : string) : string :=
  if HasSuffix s suf then take (String.length s - String.length suf) s else s.

(** [strings.Cut(s, sep)]: slices [s] around the first instance of [sep];
    [(before, after, true)], or [(s, "", false)] when [sep] does not occur. *)
Fixpoint Cut (s sep : string) : string * string * bool :=
  if HasPrefix s sep then (EmptyString, drop (String.length sep) s, true)
  else match s with
       | EmptyString => (EmptyString, EmptyString, false)
       | String a s' =>
           let '(before, after, found) := Cut s' sep in
           (String a before, after, found)
       end.

(** Whether the byte [c] occurs in [s]. *)
Fixpoint occurs (c : Ascii.ascii) (s : string) : bool :=
  match s with
  | EmptyString => false
  | String a s' => if decide (a = c) then true else occurs c s'
  end.

End GoStrings.

(** ** Data model *)

(** Go's [time.Time] is a struct of a wall-clock word, a monotonic
    extension and a location pointer; [!=] on it compares the three fields.
    The location is kept as its address. *)
Record time_Time := mkTime { wall : Z; ext : Z; loc : Z }.

Global Instance time_Time_eq_dec : EqDecision time_Time.
Proof. solve_decision. Defined.

(** The package pkg/run. *)
Module run.

(** Modelled from the spec: [run.Artifact] is declared in pkg/run; the
    fields are the ones the driver test builds ([Path], [Time], [Checksum])
    and the spec's data model lists: identity, timestamp, and a mapping from
    checksum algorithm to hex digest. *)
Record Artifact := mkArtifact {
  Path : string;
  Time : time_Time;
  Checksum : gmap string string
}.

Global Instance Artifact_eq_dec : EqDecision Artifact.
Proof. solve_decision. Defined.

(** Modelled from the spec: [run.Run] is declared in pkg/run; the spec's
    data model gives it a run-specification URL and the [IsRunning] flag
    that [Watch] reads (further backend metadata plays no part in the loop). *)
Record Run := mkRun { SpecURL : string; IsRunning : bool }.

End run.
Import run.

(** [type Snapshot map[string]run.Artifact]. *)
Abbreviation Snapshot := (gmap string Artifact).

(** The order of one evaluation's [range] statements over maps. Go leaves
    it unspecified (and randomises it); all that is known is that every
    entry of the map is visited once. *)
Record RangeOrder := mkRangeOrder {
  range : ∀ {V : Type}, gmap string V → list (string * V);
  range_perm : ∀ (V : Type) (m : gmap string V), range m ≡ₚ map_to_list m
}.

(** Two orders a run may see: the order in which [gmap] lists its entries,
    and the reverse of it. *)
Definition listed : RangeOrder :=
  {| range := λ V m, map_to_list m;
     range_perm := λ V m, reflexivity (map_to_list m) |}.

Definition reversed : RangeOrder :=
  {| range := λ V m, reverse (map_to_list m);
     range_perm := λ V m, reverse_Permutation (map_to_list m) |}.

(** ** Snapshot.Delta (pkg/watcher) *)

(** The inner loop of [Delta]:
    [for algo, val := range checksum { if fv, ok := f.Checksum[algo]; ok {
       if fv != val { results = append(results, f); break } } }]
    over the entries of the earlier checksum map in the order ranged. *)
Fixpoint checksum_loop (f : Artifact) (results : list Artifact)
    (entries : list (string * string)) : list Artifact :=
  match entries with
  | [] => results
  | (algo, val) :: rest =>
      match Checksum f !! algo with
      | Some fv =>
          if decide (fv ≠ val) then results ++ [f]
          else checksum_loop f results rest
      | None => checksum_loop f results rest
      end
  end.

(** One iteration of the outer loop, for the entry [path, f] of [post]. *)
Definition Delta_body (o : RangeOrder) (snap : Snapshot)
    (results : list Artifact) (entry : string * Artifact) : list Artifact :=
  let '(path, f) := entry in
  match snap !! path with
  | None => results ++ [f]
  | Some g =>
      if decide (Time g ≠ Time f) then results ++ [f]
      else checksum_loop f results (range o (Checksum g))
  end.

(** [func (snap *Snapshot) Delta(post *Snapshot) []run.Artifact], on the
    values the two pointers refer to. *)
Definition Delta (o : RangeOrder) (snap post : Snapshot) : list Artifact :=
  fold_left (Delta_body o snap) (range o post) [].

(** *** The classification the specification gives

    The specification's reading of [Delta], entry by entry of [post]:
    added when the identity is absent from [pre]; else changed when the
    recorded times differ; else changed when some checksum algorithm present
    in both entries has differing values; else unchanged. *)
Inductive Verdict :=
| Added
| Changed
| Unchanged.

Global Instance Verdict_eq_dec : EqDecision Verdict.
Proof. solve_decision. Defined.

(** The later artifact [f] has, under the algorithm of the checksum entry
    [e] of the earlier artifact, a value other than that of [e]. *)
Definition differs_at (f : Artifact) (e : string * string) : Prop :=
  match Checksum f !! e.1 with
  | Some fv => fv ≠ e.2
  | None => False
  end.

Global Instance differs_at_dec (f : Artifact) (e : string * string) :
  Decision (differs_at f e).
Proof. unfold differs_at. destruct (Checksum f !! e.1); apply _. Defined.

(** Some algorithm present in both [g] (earlier) and [f] (later) has
    differing values. *)
Definition shared_checksum_differs (g f : Artifact) : Prop :=
  ∃ algo val fv,
    Checksum g !! algo = Some val ∧ Checksum f !! algo = Some fv ∧ fv ≠ val.

Global Instance shared_checksum_differs_dec (g f : Artifact) :
  Decision (shared_checksum_differs g f).
Proof.
  refine (cast_if (decide (Exists (differs_at f) (map_to_list (Checksum g))))).
  - match goal with H : Exists _ _ |- _ =>
      apply Exists_exists in H; destruct H as ([algo val] & Hin & Hd) end.
    apply elem_of_map_to_list in Hin.
    unfold differs_at in Hd. simpl in Hd.
    destruct (Checksum f !! algo) as [fv|] eqn:Hf; [|done].
    by exists algo, val, fv.
  - intros (algo & val & fv & Hg & Hf & Hne).
    match goal with H : ¬ Exists _ _ |- _ => apply H end.
    apply Exists_exists.
    exists (algo, val). split; [by apply elem_of_map_to_list|].
    unfold differs_at. simpl. by rewrite Hf.
Defined.

Definition spec_verdict (pre : Snapshot) (path : string) (f : Artifact) : Verdict :=
  match pre !! path with
  | None => Added
  | Some g =>
      if decide (Time g ≠ Time f) then Changed
      else if decide (shared_checksum_differs g f) then Changed
      else Unchanged
  end.

(** What the classification leaves of an entry of [post] in the result. *)
Definition spec_reported (pre : Snapshot) (entry : string * Artifact) : option Artifact :=
  match spec_verdict pre entry.1 entry.2 with
  | Unchanged => None
  | Added | Changed => Some entry.2
  end.

(** *** The same method on pointers

    [Delta] receives two [*Snapshot]s. The heap maps an address to the
    snapshot stored there; a computation takes the heap and gives its result
    with the heap it leaves, or nothing when it dereferences an address that
    holds no snapshot (a nil-pointer panic). *)
Abbreviation Heap := (gmap N Snapshot).

Definition HeapM (A : Type) : Type := Heap → option (A * Heap).

Definition ret {A : Type} (a : A) : HeapM A := λ h, Some (a, h).

Definition bind {A B : Type} (m : HeapM A) (k : A → HeapM B) : HeapM B :=
  λ h, match m h with
       | Some (a, h') => k a h'
       | None => None
       end.

(** [*p]: reads the snapshot at [p]. *)
Definition load (p : N) : HeapM Snapshot :=
  λ h, match h !! p with
       | Some s => Some (s, h)
       | None => None
       end.

Notation "'do' x <- m ; k" := (bind m (λ x, k))
  (at level 10, x name, m at level 100, k at level 200).

(** [for _, x := range xs { acc = body(acc, x) }] with effects. *)
Fixpoint foldM {A B : Type} (body : A → B → HeapM A) (xs : list B) (acc : A) : HeapM A :=
  match xs with
  | [] => ret acc
  | x :: rest => do acc' <- body acc x; foldM body rest acc'
  end.

(** The zero [run.Artifact], which indexing a map gives for a missing key. *)
Definition zero_Artifact : Artifact :=
  {| Path := ""; Time := mkTime 0 0 0; Checksum := ∅ |}.

(** [m[path]] as an expression. *)
Definition index (m : Snapshot) (path : string) : Artifact :=
  default zero_Artifact (m !! path).

(** One iteration of the outer loop: every [( *snap)[path]] is a read of the
    heap cell of [snap]; the only assignment is to the local [results]. *)
Definition Delta_step (o : RangeOrder) (snap : N)
    (results : list Artifact) (entry : string * Artifact) : HeapM (list Artifact) :=
  let '(path, f) := entry in
  do pre <- load snap;
  if decide (pre !! path = None) then ret (results ++ [f])
  else
    do pre <- load snap;
    if decide (Time (index pre path) ≠ Time f) then ret (results ++ [f])
    else
      do pre <- load snap;
      let checksum := Checksum (index pre path) in
      ret (checksum_loop f results (range o checksum)).

(** [func (snap *Snapshot) Delta(post *Snapshot) []run.Artifact]. *)
Definition Snapshot_Delta (o : RangeOrder) (snap post : N) : HeapM (list Artifact) :=
  do entries <- load post;
  foldM (Delta_step o snap) (range o entries) [].

(** ** Watcher.Watch (pkg/watcher) *)

(** [builder.Builder]: the backend behind [RefreshRun]. A call re-reads the
    state of the build system ([World]) and updates the run in place; it
    gives the error (if any), the run as it leaves it, and the new state. *)
Record Builder (World : Type) := mkBuilder {
  RefreshRun : Run → World → option string * Run * World
}.
Arguments RefreshRun {World} _ _ _.

(** What [Watch] does to the outside world. *)
Inductive WatchEvent :=
| EvRefresh
| EvSleep (seconds : Z).

Global Instance WatchEvent_eq_dec : EqDecision WatchEvent.
Proof. solve_decision. Defined.

(** [func (w *Watcher) Watch(r *run.Run) error]: the result is the error,
    the run and backend state at return, and the events in order. [None]
    when the fuel does not reach the end of the loop. *)
Fixpoint Watch {World : Type} (b : Builder World) (fuel : nat)
    (r : Run) (w : World) (events : list WatchEvent)
    : option (option string * Run * World * list WatchEvent) :=
  match fuel with
  | O => None
  | S fuel' =>
      if negb (IsRunning r) then Some (None, r, w, events)
      else
        let '(err, r', w') := RefreshRun b r w in
        match err with
        | Some e => Some (Some ("refreshing run data: " +:+ e), r', w', events ++ [EvRefresh])
        | None => Watch b fuel' r' w' (events ++ [EvRefresh; EvSleep 3])
        end
  end.

(** The number of [RefreshRun] calls in a sequence of events. *)
Definition refresh_calls (events : list WatchEvent) : nat :=
  length (filter (λ e, e = EvRefresh) events).

(** [n] rounds of the loop: a refresh, then the sleep of three seconds. *)
Fixpoint polls (n : nat) : list WatchEvent :=
  match n with
  | O => []
  | S n' => EvRefresh :: EvSleep 3 :: polls n'
  end.

(** [flips_after b n r w rf wf]: from the run [r] and the backend state
    [w], the run reports running before each of [n] calls of [RefreshRun],
    none of which fails, and the [n]-th leaves it not running, as [rf] with
    the backend in [wf]. *)
Inductive flips_after {World : Type} (b : Builder World)
  : nat → Run → World → Run → World → Prop :=
| flips_now r w :
    IsRunning r = false → flips_after b 0 r w r w
| flips_later n r w r' w' rf wf :
    IsRunning r = true →
    RefreshRun b r w = (None, r', w') →
    flips_after b n r' w' rf wf →
    flips_after b (S n) r w rf wf.

(** A build system that finishes the run at its [w]-th refresh. *)
Definition countdown : Builder nat :=
  {| RefreshRun := λ r w,
       (None, {| SpecURL := SpecURL r; IsRunning := bool_decide (1 < w) |}, pred w) |}.

(** ** The GCS store driver (pkg/store/driver) *)

Module driver.

(** The fields of [storage.ObjectAttrs] that the driver reads. *)
Record ObjectAttrs := mkObjectAttrs {
  Name : string;
  Prefix : string;
  Size : Z;
  ContentType : string
}.

(** [type GCS struct]; the storage client is the [Cloud] below. *)
Record GCS := mkGCS {
  Bucket : string;
  Path : string;
  WorkDir : string
}.

(** Every call that leaves the process, in order. *)
Inductive IOEvent :=
| EvObjects (bucket query : string)
| EvMkdirAll (dir : string)
| EvOpenFile (localpath : string)
| EvNewReader (bucket object : string)
| EvCopy (localpath : string)
| EvClose (object : string)
| EvNewDirectory (url : string)
| EvDirectorySnap (dir : string).

Global Instance IOEvent_eq_dec : EqDecision IOEvent.
Proof. solve_decision. Defined.

(** What lies outside the driver: the bucket, the local file system, two
    functions of [path/filepath], and the Directory driver of the same
    package. An [option string] is a Go [error]: [None] is [nil].
    - [Objects bucket query]: what the iterator of
      [Bucket(bucket).Objects(ctx, {Delimiter: "/", Prefix: query})] gives
      call after call of [Next] until [iterator.Done]: attributes, or an error;
    - [OpenFile], [NewReader], [Copy], [Close]: the error of each call;
    - [DirectorySnap dir history]: the result of [Directory.Snap] on [dir]
      after the calls of [history], a snapshot or an error. *)
Record Cloud := mkCloud {
  Objects : string → string → list (ObjectAttrs + string);
  OpenFile : string → option string;
  NewReader : string → string → option string;
  Copy : string → option string;
  Close : string → option string;
  filepath_Join : string → string → string;
  filepath_Dir : string → string;
  NewDirectory : string → option string;
  DirectorySnap : string → list IOEvent → Snapshot + string
}.

(** A call either returns, or ends the process ([log.Fatal]). *)
Inductive Outcome (A : Type) :=
| Return (a : A)
| Fatal (msg : string).
Arguments Return {A} _.
Arguments Fatal {A} _.

(** The state a synchronisation threads through its calls: the [seen] map
    (shared by all recursive calls) and the calls made so far. *)
Record SyncState := mkSyncState {
  seen : gset string;
  trace : list IOEvent
}.

Definition emit (es : list IOEvent) (st : SyncState) : SyncState :=
  {| seen := seen st; trace := trace st ++ es |}.

(** [func (gcs *GCS) syncGSFile(ctx, filePath string) error]. *)
Definition syncGSFile (c : Cloud) (gcs : GCS) (filePath : string)
    (st : SyncState) : option string * SyncState :=
  let localpath := filepath_Join c (WorkDir gcs) filePath in
  let st := emit [EvMkdirAll (filepath_Dir c localpath); EvOpenFile localpath] st in
  match OpenFile c localpath with
  | Some e => (Some ("opening localfile: " +:+ e), st)
  | None =>
      let st := emit [EvNewReader (Bucket gcs) filePath] st in
      match NewReader c (Bucket gcs) filePath with
      | Some e => (Some ("creating bucket reader: " +:+ e), st)
      | None =>
          let st := emit [EvCopy localpath] st in
          match Copy c localpath with
          | Some e => (Some ("copying data: " +:+ e), st)
          | None =>
              let st := emit [EvClose filePath] st in
              match Close c filePath with
              | Some _ => (Some "closing bucket reader", st)
              | None => (None, st)
              end
          end
      end
  end.

(** The copy loop that ends [syncGCSPrefix]:
    [for _, filename := range filesToSync { if err := gcs.syncGSFile(...);
       err != nil { return fmt.Errorf("synching file: %w", err) } }]. *)
Fixpoint sync_files (c : Cloud) (gcs : GCS) (filesToSync : list string)
    (st : SyncState) : option string * SyncState :=
  match filesToSync with
  | [] => (None, st)
  | filename :: rest =>
      match syncGSFile c gcs filename st with
      | (Some e, st') => (Some ("synching file: " +:+ e), st')
      | (None, st') => sync_files c gcs rest st'
      end
  end.

(** What one iteration of the listing loop does with the attributes read. *)
Inductive Action :=
| Recurse (prefix : string)
| Skip
| Schedule (filename : string).

Global Instance Action_eq_dec : EqDecision Action.
Proof. solve_decision. Defined.

(** The body of the listing loop of [syncGCSPrefix], in the order of its
    [if] statements. *)
Definition entry_action (seen : gset string) (attrs : ObjectAttrs) : Action :=
  if decide ((Prefix attrs ∉ seen) ∧ Name attrs = "") then Recurse (Prefix attrs)
  else if decide (GoStrings.HasSuffix (Name attrs) "/" = true
                  ∧ (GoStrings.TrimSuffix (Name attrs) "/" ∉ seen))
  then Recurse (GoStrings.TrimSuffix (Name attrs) "/")
  else if decide (Name attrs ≠ "" ∧ (Size attrs > 0)%Z ∧ ContentType attrs = "text/plain")
  then Skip
  else if decide (Name attrs ≠ "") then Schedule (Prefix attrs +:+ Name attrs)
  else Skip.

(** The listing loop, over what the iterator gives. [rec] is the recursive
    call of [syncGCSPrefix]; the error it returns is dropped, as in the
    source. *)
Fixpoint list_loop
    (rec : string → SyncState → option (Outcome (option string) * SyncState))
    (items : list (ObjectAttrs + string)) (filesToSync : list string)
    (st : SyncState) : option (Outcome (list string) * SyncState) :=
  match items with
  | [] => Some (Return filesToSync, st)
  | inr e :: _ => Some (Fatal e, st)
  | inl attrs :: rest =>
      match entry_action (seen st) attrs with
      | Recurse prefix =>
          match rec prefix st with
          | None => None
          | Some (Fatal e, st') => Some (Fatal e, st')
          | Some (Return _, st') => list_loop rec rest filesToSync st'
          end
      | Skip => list_loop rec rest filesToSync st
      | Schedule filename => list_loop rec rest (filesToSync ++ [filename]) st
      end
  end.

(** [func (gcs *GCS) syncGCSPrefix(ctx, prefix string, seen map[string]struct{}) error].
    [None] when the fuel does not cover the depth of the recursion. *)
Fixpoint syncGCSPrefix (fuel : nat) (c : Cloud) (gcs : GCS) (prefix : string)
    (st : SyncState) : option (Outcome (option string) * SyncState) :=
  match fuel with
  | O => None
  | S fuel' =>
      let query := GoStrings.TrimPrefix prefix "/" in
      let st := {| seen := {[prefix]} ∪ seen st;
                   trace := trace st ++ [EvObjects (Bucket gcs) query] |} in
      match list_loop (syncGCSPrefix fuel' c gcs) (Objects c (Bucket gcs) query) [] st with
      | None => None
      | Some (Fatal e, st') => Some (Fatal e, st')
      | Some (Return filesToSync, st') =>
          let '(err, st'') := sync_files c gcs filesToSync st' in
          Some (Return err, st'')
      end
  end.

(** The loop that ends [Snap]: every artifact of the work directory is
    stored under its [gs://] identity. *)
Definition rewrite_paths (o : RangeOrder) (c : Cloud) (gcs : GCS)
    (snapDir : Snapshot) : Snapshot :=
  fold_left
    (λ (snap : Snapshot) (entry : string * Artifact),
       let a := entry.2 in
       let path := "gs://" +:+ (filepath_Join c (Bucket gcs)
                                  (GoStrings.TrimPrefix (run.Path a) (WorkDir gcs))) in
       <[path := {| run.Path := path; Time := Time a; Checksum := Checksum a |}]> snap)
    (range o snapDir) ∅.

(** [func (gcs *GCS) Snap() ( *snapshot.Snapshot, error)]: the two results,
    and every call made on the way. *)
Definition Snap (o : RangeOrder) (fuel : nat) (c : Cloud) (gcs : GCS)
    : option (Outcome (option Snapshot * option string) * list IOEvent) :=
  if decide (Path gcs = "") then
    Some (Return (None, Some "gcs store has no path defined"), [])
  else if decide (Bucket gcs = "") then
    Some (Return (None, Some "gcs store has no bucket defined"), [])
  else
    match syncGCSPrefix fuel c gcs (GoStrings.TrimPrefix (Path gcs) "/")
            {| seen := ∅; trace := [] |} with
    | None => None
    | Some (Fatal e, st) => Some (Fatal e, trace st)
    | Some (Return (Some e), st) =>
        Some (Return (None, Some ("synching bucket: " +:+ e)), trace st)
    | Some (Return None, st) =>
        let url := "file://" +:+ WorkDir gcs in
        let events := trace st ++ [EvNewDirectory url] in
        match NewDirectory c url with
        | Some e => Some (Return (None, Some ("creating temp directory store: " +:+ e)), events)
        | None =>
            let events' := events ++ [EvDirectorySnap (WorkDir gcs)] in
            match DirectorySnap c (WorkDir gcs) events with
            | inl snapDir =>
                Some (Return (Some (rewrite_paths o c gcs snapDir), None), events')
            | inr e =>
                Some (Return (None, Some ("snapshotting work directory: " +:+ e)), events')
            end
        end
    end.

End driver.

(** ** tejolote start attestation (internal/cmd) *)

Module cmd.

(** [slsa.ProvenanceMaterial] of in-toto's SLSA v0.2 provenance. *)
Record ProvenanceMaterial := mkMaterial {
  URI : string;
  Digest : gmap string string
}.

Global Instance ProvenanceMaterial_eq_dec : EqDecision ProvenanceMaterial.
Proof. solve_decision. Defined.

(** The field of the SLSA predicate that the start command fills. *)
Record SLSAPredicate := mkPredicate {
  Materials : list ProvenanceMaterial
}.

Record startAttestationOptions := mkOptions {
  clone : bool;
  repo : string;
  repoPath : string;
  pubsub : string;
  vcsURL : string;
  artifacts : list string
}.

(** [func (opts startAttestationOptions) Validate() error]. *)
Definition Validate (opts : startAttestationOptions) : option string :=
  if clone opts && bool_decide (repo opts = "") then
    Some "repository clone requested but no repository was specified"
  else if clone opts && bool_decide (repoPath opts = "") then
    Some "repository clone requested but no repository path was specified"
  else None.

(** The material that [RunE] builds from a VCS locator:
    [material := slsa.ProvenanceMaterial{URI: vcsURL, Digest: map[string]string{}}]
    and then, when [strings.Cut(vcsURL, "@")] finds the separator,
    [material.URI = repoURL; material.Digest["sha1"] = repoDigest]. *)
Definition vcs_material (vcsURL : string) : ProvenanceMaterial :=
  let material := {| URI := vcsURL; Digest := ∅ |} in
  match GoStrings.Cut vcsURL "@" with
  | (repoURL, repoDigest, true) =>
      {| URI := repoURL; Digest := <["sha1" := repoDigest]> (Digest material) |}
  | (_, _, false) => material
  end.

(** The block of [RunE] that follows the resolution of [vcsURL]:
    [if vcsURL != "" { ...; predicate.Materials = append(predicate.Materials, material) }]. *)
Definition add_vcs_material (vcsURL : string) (predicate : SLSAPredicate)
    : SLSAPredicate :=
  if decide (vcsURL ≠ "") then
    {| Materials := Materials predicate ++ [vcs_material vcsURL] |}
  else predicate.

End cmd.

(** ** The start command as a whole (internal/cmd, pkg/watcher) *)

Module startcmd.
Import cmd.

(** The part of [outputOptions] (declared beside the command) that the
    start command reads. *)
Record outputOptions := mkOutput {
  OutputPath : string;
  Workspace : string
}.

(** [watcher.StartMessage], as [RunE] fills it. *)
Record StartMessage := mkMessage {
  Message_SpecURL : string;
  Attestation : string;
  Artifacts : list string;
  ArtifactList : string;
  Snapshots : string
}.

(** Every call that [RunE] makes outside the command, in order. *)
Inductive Call :=
| CallBuilderNew (uri : string)
| CallStoreNew (specURL : string)
| CallSnap
| CallWarning (msg : string)
| CallSaveSnapshots (path : string)
| CallAbs (path : string)
| CallProbe (repoPath : string)
| CallToJSON (predicate : SLSAPredicate)
| CallPrintln (json : string)
| CallWriteFile (path json : string)
| CallExists (path : string)
| CallReadFile (path : string)
| CallPublish (topic : string) (message : StartMessage).

(** What lies outside the command; a [string + A] is a Go result with its
    error on the left, an [option string] an [error].
    - [builder_New uri]: the error of [builder.New], or the [SpecURL] of
      the builder made;
    - [store_New specURL]: the store of [store.New], of type [Store];
    - [Snap], [Snapshots_len]: the error of [w.Snap()] and [len(w.Snapshots)]
      after it;
    - [FinalSnapshotStatePath], [SaveSnapshots], [ToJSON], [Exists],
      [ReadFile], [PublishToTopic], [NewSLSAPredicate]: the methods and
      functions of these names;
    - [Separator], [filepath_Join], [filepath_Abs], [ProbeDirForVCSUrl],
      [base64]: the library functions.
    The error of [os.WriteFile] is not part of it: [RunE] drops it. *)
Record World (Store : Type) := mkWorld {
  builder_New : string → string + string;
  store_New : string → string + Store;
  Snap : option string;
  Snapshots_len : nat;
  FinalSnapshotStatePath : outputOptions → string → string;
  SaveSnapshots : string → option string;
  NewSLSAPredicate : SLSAPredicate;
  Separator : string;
  filepath_Join : string → string → string;
  filepath_Abs : string → string + string;
  ProbeDirForVCSUrl : string → string → string + string;
  ToJSON : SLSAPredicate → string + string;
  Exists : string → bool;
  ReadFile : string → string + string;
  base64 : string → string;
  PublishToTopic : string → StartMessage → option string
}.
Arguments builder_New {Store} _ _.
Arguments store_New {Store} _ _.
Arguments Snap {Store} _.
Arguments Snapshots_len {Store} _.
Arguments FinalSnapshotStatePath {Store} _ _ _.
Arguments SaveSnapshots {Store} _ _.
Arguments NewSLSAPredicate {Store} _.
Arguments Separator {Store} _.
Arguments filepath_Join {Store} _ _ _.
Arguments filepath_Abs {Store} _ _.
Arguments ProbeDirForVCSUrl {Store} _ _ _.
Arguments ToJSON {Store} _ _.
Arguments Exists {Store} _ _.
Arguments ReadFile {Store} _ _.
Arguments base64 {Store} _ _.
Arguments PublishToTopic {Store} _ _ _.

(** The state of a run of the command: the calls made, and the
    [ArtifactStores] of the watcher. *)
Record RunState (Store : Type) := mkRunState {
  calls : list Call;
  ArtifactStores : list Store
}.
Arguments mkRunState {Store} _ _.
Arguments calls {Store} _.
Arguments ArtifactStores {Store} _.

(** A step of the command: it returns an error (on the left), which ends
    the command, or a value, with the state it leaves. *)
Definition Cmd (Store A : Type) : Type :=
  RunState Store → (string + A) * RunState Store.

Definition cret {Store A : Type} (a : A) : Cmd Store A := λ st, (inr a, st).

Definition cfail {Store A : Type} (e : string) : Cmd Store A := λ st, (inl e, st).

Definition cbind {Store A B : Type} (m : Cmd Store A) (k : A → Cmd Store B)
    : Cmd Store B :=
  λ st, match m st with
        | (inl e, st') => (inl e, st')
        | (inr a, st') => k a st'
        end.

Notation "'try' x <- m ; k" := (cbind m (λ x, k))
  (at level 10, x name, m at level 100, k at level 200).

Definition call {Store : Type} (c : Call) : Cmd Store unit :=
  λ st, (inr (), {| calls := calls st ++ [c]; ArtifactStores := ArtifactStores st |}).

(** [if err != nil { return fmt.Errorf(context + "%w", err) }]. *)
Definition check {Store : Type} (context : string) (err : option string)
    : Cmd Store unit :=
  match err with
  | Some e => cfail (context +:+ e)
  | None => cret ()
  end.

(** [strings.Join(elems, sep)]. *)
Fixpoint strings_Join (elems : list string) (sep : string) : string :=
  match elems with
  | [] => ""
  | [e] => e
  | e :: rest => e +:+ sep +:+ strings_Join rest sep
  end.

Section Command.
Context {Store : Type} (W : World Store).

(** [func (w *Watcher) AddArtifactSource(specURL string) error]. *)
Definition AddArtifactSource (specURL : string) : Cmd Store unit :=
  try _ <- call (CallStoreNew specURL);
  match store_New W specURL with
  | inl e => cfail ("getting artifact store: " +:+ e)
  | inr s =>
      λ st, (inr (), {| calls := calls st; ArtifactStores := ArtifactStores st ++ [s] |})
  end.

(** [for _, uri := range startAttestationOpts.artifacts { if err :=
    w.AddArtifactSource(uri); err != nil { return fmt.Errorf("adding
    artifacts source: %w", err) } }]. *)
Fixpoint add_sources (uris : list string) : Cmd Store unit :=
  match uris with
  | [] => cret ()
  | uri :: rest =>
      λ st, match AddArtifactSource uri st with
            | (inl e, st') => (inl ("adding artifacts source: " +:+ e), st')
            | (inr _, st') => add_sources rest st'
            end
  end.

(** [func readVCSURL(outputOpts outputOptions, opts startAttestationOptions)
    (string, error)]. *)
Definition readVCSURL (outputOpts : outputOptions) (opts : startAttestationOptions)
    : Cmd Store string :=
  if decide (repoPath opts = "") then cret ""
  else
    let path :=
      if GoStrings.HasPrefix (repoPath opts) (Separator W) then repoPath opts
      else filepath_Join W (Workspace outputOpts) (repoPath opts) in
    try _ <- call (CallAbs path);
    match filepath_Abs W path with
    | inl e => cfail ("resolving absolute path to repo: " +:+ e)
    | inr abs =>
        try _ <- call (CallProbe abs);
        match ProbeDirForVCSUrl W abs abs with
        | inl e => cfail ("probing VCS URL: " +:+ e)
        | inr urlString => cret urlString
        end
    end.

(** The [RunE] of [tejolote start attestation]: [inr ()] is a nil error. *)
Definition RunE (opts : startAttestationOptions) (outputOps : outputOptions)
    (args : list string) : Cmd Store unit :=
  try _ <- check "validating options: " (Validate opts);
  match args with
  | [] => cfail "build run spec URL not specified"
  | arg0 :: _ =>
      try _ <- call (CallBuilderNew arg0);
      match builder_New W arg0 with
      | inl _ => cfail "building watcher"
      | inr specURL =>
          try _ <- add_sources (artifacts opts);
          try _ <- call CallSnap;
          try _ <- check "snapshotting the artifact repositories: " (Snap W);
          let statePath := FinalSnapshotStatePath W outputOps (OutputPath outputOps) in
          try _ <- (if decide (statePath = "") then
                      if decide (0 < Snapshots_len W) then
                        call (CallWarning
                                "Not saving storage state but artifact sources defined")
                      else cret ()
                    else
                      try _ <- call (CallSaveSnapshots statePath);
                      check "saving storage snapshots: " (SaveSnapshots W statePath));
          let predicate := NewSLSAPredicate W in
          if clone opts then cfail "repository cloning not yet implemented"
          else
            try url <- (if decide (vcsURL opts = "") then
                          λ st, match readVCSURL outputOps opts st with
                                | (inl e, st') => (inl ("fetching VCS URL: " +:+ e), st')
                                | (inr u, st') => (inr u, st')
                                end
                        else cret (vcsURL opts));
            let predicate := add_vcs_material url predicate in
            try _ <- call (CallToJSON predicate);
            match ToJSON W predicate with
            | inl e => cfail ("serializing attestation json: " +:+ e)
            | inr json =>
                try _ <- (if decide (OutputPath outputOps = "") then call (CallPrintln json)
                          else call (CallWriteFile (OutputPath outputOps) json));
                if decide (pubsub opts ≠ "") then
                  try _ <- call (CallExists statePath);
                  try sdata <- (if Exists W statePath then
                                  try _ <- call (CallReadFile statePath);
                                  match ReadFile W statePath with
                                  | inl e => cfail ("reading snapshot data: " +:+ e)
                                  | inr data => cret (Some data)
                                  end
                                else cret None);
                  let message :=
                    {| Message_SpecURL := specURL;
                       Attestation := base64 W json;
                       Artifacts := artifacts opts;
                       ArtifactList := strings_Join (artifacts opts) ",";
                       Snapshots := match sdata with
                                    | Some data => base64 W data
                                    | None => ""
                                    end |} in
                  try _ <- call (CallPublish (pubsub opts) message);
                  check "publishing message to pubsub topic: "
                        (PublishToTopic W (pubsub opts) message)
                else cret ()
            end
      end
  end.

End Command.

End startcmd.

(** [adds P m]: whatever the state, the step [m] only appends calls to the
    ones made, and every call it appends satisfies [P]. *)
Definition adds {Store A : Type} (P : startcmd.Call → Prop)
    (m : startcmd.Cmd Store A) : Prop :=
  ∀ st, ∃ new, startcmd.calls (m st).2 = startcmd.calls st ++ new ∧ Forall P new.

(** The calls that look at the repository checkout, and the calls that let
    an attestation out of the command. *)
Definition probes_checkout (c : startcmd.Call) : Prop :=
  match c with
  | startcmd.CallAbs _ | startcmd.CallProbe _ => True
  | _ => False
  end.

Definition emits_attestation (c : startcmd.Call) : Prop :=
  match c with
  | startcmd.CallToJSON _ | startcmd.CallPrintln _ | startcmd.CallWriteFile _ _
  | startcmd.CallPublish _ _ => True
  | _ => False
  end.

Definition publishes (c : startcmd.Call) : Prop :=
  match c with
  | startcmd.CallExists _ | startcmd.CallReadFile _ | startcmd.CallPublish _ _ => True
  | _ => False
  end.

(** A world in which every call succeeds: stores are named by their URL,
    the checkout is that of tejolote at a fixed commit, and JSON is a
    rendering of the number of materials. *)
Definition calm_world : startcmd.World string :=
  {| startcmd.builder_New := λ uri, inr uri;
     startcmd.store_New := λ specURL, inr specURL;
     startcmd.Snap := None;
     startcmd.Snapshots_len := 1;
     startcmd.FinalSnapshotStatePath := λ _ path,
       if decide (path = "") then "" else path +:+ ".storage-snap.json";
     startcmd.SaveSnapshots := λ _, None;
     startcmd.NewSLSAPredicate := {| cmd.Materials := [] |};
     startcmd.Separator := "/";
     startcmd.filepath_Join := λ a b, a +:+ "/" +:+ b;
     startcmd.filepath_Abs := λ path, inr path;
     startcmd.ProbeDirForVCSUrl := λ _ _,
       inr "https://github.com/kubernetes-sigs/tejolote@5a4bcb8e";
     startcmd.ToJSON := λ p,
       inr (if decide (cmd.Materials p = []) then "{}" else "{materials}");
     startcmd.Exists := λ _, true;
     startcmd.ReadFile := λ _, inr "{snapshots}";
     startcmd.base64 := λ data, "b64:" +:+ data;
     startcmd.PublishToTopic := λ _ _, None |}.

Definition start_options : cmd.startAttestationOptions :=
  {| cmd.clone := false; cmd.repo := ""; cmd.repoPath := ".";
     cmd.pubsub := "";
     cmd.vcsURL := "https://github.com/kubernetes-sigs/tejolote@5a4bcb8e";
     cmd.artifacts := ["file:///out"; "gs://releases/build/"] |}.

Definition clone_options : cmd.startAttestationOptions :=
  {| cmd.clone := true; cmd.repo := "https://github.com/kubernetes-sigs/tejolote";
     cmd.repoPath := "."; cmd.pubsub := ""; cmd.vcsURL := "";
     cmd.artifacts := [] |}.

Definition to_file : startcmd.outputOptions :=
  {| startcmd.OutputPath := "att.json"; startcmd.Workspace := "/workspace" |}.

Definition no_calls : startcmd.RunState string :=
  {| startcmd.calls := []; startcmd.ArtifactStores := [] |}.

(** ** Runs that fail, and what a synchronisation has touched *)

(** [fails_after b n r w e rf wf]: from [r] and [w], the run reports running
    before each call of [RefreshRun]; [n] calls succeed and the next one
    fails with [e], leaving the run as [rf] and the backend in [wf]. *)
Inductive fails_after {World : Type} (b : Builder World)
  : nat → Run → World → string → Run → World → Prop :=
| fails_now r w e rf wf :
    IsRunning r = true →
    RefreshRun b r w = (Some e, rf, wf) →
    fails_after b 0 r w e rf wf
| fails_later n r w r' w' e rf wf :
    IsRunning r = true →
    RefreshRun b r w = (None, r', w') →
    fails_after b n r' w' e rf wf →
    fails_after b (S n) r w e rf wf.

(** A build system that fails at its [w]-th refresh, leaving the run as it is. *)
Definition flaky : Builder nat :=
  {| RefreshRun := λ r w,
       (if decide (w = 0) then Some "backend unreachable" else None, r, pred w) |}.

(** A build system whose run never ends. *)
Definition endless : Builder unit :=
  {| RefreshRun := λ r w, (None, {| SpecURL := SpecURL r; IsRunning := true |}, w) |}.

(** The objects of the bucket opened for reading, in order. *)
Definition objects_read (events : list driver.IOEvent) : list string :=
  omap (λ e, match e with driver.EvNewReader _ object => Some object | _ => None end)
       events.

(** The number of listings of the bucket started. *)
Definition is_listing (e : driver.IOEvent) : bool :=
  match e with
  | driver.EvObjects _ _ => true
  | _ => false
  end.

Definition listings (events : list driver.IOEvent) : nat :=
  length (filter (λ e, is_listing e = true) events).

(** What a call of the driver leaves of the state it found: more events
    after the ones it found, a larger [seen], and as many listings started
    as prefixes newly seen. *)
Definition extends (st st' : driver.SyncState) : Prop :=
  ∃ es, driver.trace st' = driver.trace st ++ es
        ∧ driver.seen st ⊆ driver.seen st'
        ∧ size (driver.seen st') = size (driver.seen st) + listings es.

(** ** Snapshots, buckets and locators used in the checks *)

(** A snapshot whose every artifact carries its own identity in [Path], as
    the drivers build them ([snap[path] = a] after [a.Path = path]). *)
Definition keyed_by_path (s : Snapshot) : Prop :=
  ∀ path a, s !! path = Some a → Path a = path.

(** Snapshots used in the checks below: the driver test's [test.txt] cases. *)
Definition fixedTime : time_Time := mkTime 0 (-187000170) 1.
Definition writeTime : time_Time := mkTime 0 1667170000 1.

Definition sha256_test : string :=
  "9f86d081884c7d659a2feaa0c55ad015a3bf4f1b2b0b822cd15d6c15b0f00a08".
Definition sha256_changed : string :=
  "76aad9c1d52e424d0dd6c6b8e07169d5d5f9001a06fe5343d4bfa13c804788f0".

Definition test_txt (t : time_Time) (sum : string) : Artifact :=
  {| Path := "test.txt"; Time := t; Checksum := {[ "SHA256" := sum ]} |}.

Definition one_file (a : Artifact) : Snapshot := {[ Path a := a ]}.

(** A binary recorded under two checksum algorithms, before and after a
    build that changed its content and kept its time. *)
Definition two_sums_old : Artifact :=
  {| Path := "bin/a"; Time := fixedTime;
     Checksum := <[ "SHA1" := "11" ]> {[ "SHA256" := "22" ]} |}.

Definition two_sums_new : Artifact :=
  {| Path := "bin/a"; Time := fixedTime;
     Checksum := <[ "SHA1" := "33" ]> {[ "SHA256" := "44" ]} |}.

(** [test.txt] as a driver that hashes with SHA1 only records it. *)
Definition test_txt_sha1 : Artifact :=
  {| Path := "test.txt"; Time := fixedTime; Checksum := {[ "SHA1" := "a94a8fe5" ]} |}.

(** Two artifacts added by one build. *)
Definition two_added : Snapshot :=
  <[ "bin/a" := {| Path := "bin/a"; Time := fixedTime; Checksum := ∅ |} ]>
    {[ "bin/b" := {| Path := "bin/b"; Time := fixedTime; Checksum := ∅ |} ]}.

(** A file deleted by the build: [old.txt] is in pre only. *)
Definition with_old_file : Snapshot :=
  <[ "old.txt" := {| Path := "old.txt"; Time := fixedTime; Checksum := ∅ |} ]>
    (one_file (test_txt fixedTime sha256_test)).

(** [filepath.Dir] on a clean slash-separated path: all but the last element. *)
Fixpoint dir_of (p : string) : string :=
  match p with
  | EmptyString => EmptyString
  | String a p' => if GoStrings.occurs "/" p' then String a (dir_of p') else EmptyString
  end.

(** A bucket whose prefix [build/] lists an empty plain-text object that
    is no directory marker, a plain-text file of five bytes, and a binary;
    every call succeeds. *)
Definition empty_note : driver.ObjectAttrs :=
  {| driver.Name := "EMPTY"; driver.Prefix := "build/";
     driver.Size := 0; driver.ContentType := "text/plain" |}.

Definition notes_txt : driver.ObjectAttrs :=
  {| driver.Name := "notes.txt"; driver.Prefix := "build/";
     driver.Size := 5; driver.ContentType := "text/plain" |}.

Definition app_bin : driver.ObjectAttrs :=
  {| driver.Name := "app"; driver.Prefix := "build/";
     driver.Size := 1024; driver.ContentType := "application/octet-stream" |}.

Definition build_bucket : driver.Cloud :=
  {| driver.Objects := λ bucket query,
       if decide (query = "build/") then [inl empty_note; inl notes_txt; inl app_bin]
       else [];
     driver.OpenFile := λ _, None;
     driver.NewReader := λ _ _, None;
     driver.Copy := λ _, None;
     driver.Close := λ _, None;
     driver.filepath_Join := λ a b, a +:+ "/" +:+ b;
     driver.filepath_Dir := dir_of;
     driver.NewDirectory := λ _, None;
     driver.DirectorySnap := λ _ _, inl ∅ |}.

Definition build_store : driver.GCS :=
  {| driver.Bucket := "releases"; driver.Path := "/build/"; driver.WorkDir := "/tmp/w" |}.

(** A bucket with a directory under [build/]: the listing of [build/] gives
    the entry of the sub-prefix and one object, the listing of [build/sub/]
    one object. Objects carry their full name and no prefix, as the storage
    API reports them. *)
Definition sub_prefix : driver.ObjectAttrs :=
  {| driver.Name := ""; driver.Prefix := "build/sub/";
     driver.Size := 0; driver.ContentType := "" |}.

Definition app_object : driver.ObjectAttrs :=
  {| driver.Name := "build/app"; driver.Prefix := "";
     driver.Size := 1024; driver.ContentType := "application/octet-stream" |}.

Definition lib_object : driver.ObjectAttrs :=
  {| driver.Name := "build/sub/lib.so"; driver.Prefix := "";
     driver.Size := 2048; driver.ContentType := "application/octet-stream" |}.

Definition work_dir_snapshot : Snapshot :=
  {[ "/tmp/w/build/app" :=
       {| Path := "/tmp/w/build/app"; Time := fixedTime;
          Checksum := {[ "SHA256" := sha256_test ]} |} ]}.

Definition nested_bucket : driver.Cloud :=
  {| driver.Objects := λ bucket query,
       if decide (query = "build/") then [inl sub_prefix; inl app_object]
       else if decide (query = "build/sub/") then [inl lib_object]
       else [];
     driver.OpenFile := λ _, None;
     driver.NewReader := λ _ _, None;
     driver.Copy := λ _, None;
     driver.Close := λ _, None;
     driver.filepath_Join := λ a b, a +:+ "/" +:+ GoStrings.TrimPrefix b "/";
     driver.filepath_Dir := dir_of;
     driver.NewDirectory := λ _, None;
     driver.DirectorySnap := λ _ _, inl work_dir_snapshot |}.

Definition fresh_state : driver.SyncState :=
  {| driver.seen := ∅; driver.trace := [] |}.

(** A recursive call that does all that [rec] does but returns no error. *)
Definition without_error
    (rec : string → driver.SyncState →
           option (driver.Outcome (option string) * driver.SyncState))
    : string → driver.SyncState →
      option (driver.Outcome (option string) * driver.SyncState) :=
  λ prefix st,
    match rec prefix st with
    | Some (driver.Return _, st') => Some (driver.Return None, st')
    | r => r
    end.

(** The nested bucket with a library that cannot be read. *)
Definition unreadable_lib : driver.Cloud :=
  {| driver.Objects := driver.Objects nested_bucket;
     driver.OpenFile := λ _, None;
     driver.NewReader := λ _ object,
       if decide (object = "build/sub/lib.so") then Some "storage: object doesn't exist"
       else None;
     driver.Copy := λ _, None;
     driver.Close := λ _, None;
     driver.filepath_Join := driver.filepath_Join nested_bucket;
     driver.filepath_Dir := dir_of;
     driver.NewDirectory := λ _, None;
     driver.DirectorySnap := λ _ _, inl work_dir_snapshot |}.

(** * Properties *)

(** ** Ranging over a map *)

Section Range.
Context (o : RangeOrder) {V : Type}.
Implicit Types m : gmap string V.

Lemma elem_of_range m k v : (k, v) ∈ range o m ↔ m !! k = Some v.
Proof. by rewrite (range_perm o V m), elem_of_map_to_list. Qed.

Lemma range_NoDup_keys m : NoDup (range o m).*1.
Proof. rewrite (range_perm o V m). apply NoDup_fst_map_to_list. Qed.

Lemma range_length m : length (range o m) = size m.
Proof. by rewrite (range_perm o V m), length_map_to_list. Qed.

Lemma range_order_irrelevant (o' : RangeOrder) m : range o m ≡ₚ range o' m.
Proof. by rewrite (range_perm o V m), (range_perm o' V m). Qed.

End Range.

(** ** Delta *)

Lemma shared_checksum_differs_listed (g f : Artifact) :
  shared_checksum_differs g f ↔ Exists (differs_at f) (map_to_list (Checksum g)).
Proof.
  rewrite Exists_exists. split.
  - intros (algo & val & fv & Hg & Hf & Hne).
    exists (algo, val). split; [by apply elem_of_map_to_list|].
    unfold differs_at. simpl. by rewrite Hf.
  - intros ([algo val] & Hin & Hd). apply elem_of_map_to_list in Hin.
    unfold differs_at in Hd. simpl in Hd.
    destruct (Checksum f !! algo) as [fv|] eqn:Hf; [|done].
    by exists algo, val, fv.
Qed.

Section DeltaLoop.
Context (o : RangeOrder).
Implicit Types (pre post : Snapshot) (f g : Artifact) (results : list Artifact).

(** The inner loop appends [f] once when some entry ranged over differs,
    and nothing otherwise. *)
Lemma checksum_loop_spec f results (entries : list (string * string)) :
  checksum_loop f results entries =
    if decide (Exists (differs_at f) entries) then results ++ [f] else results.
Proof.
  induction entries as [|[algo val] rest IH]; cbn [checksum_loop].
  - destruct (decide (Exists (differs_at f) [])) as [H|H]; [|done].
    by apply Exists_nil in H.
  - destruct (Checksum f !! algo) as [fv|] eqn:Hf.
    + destruct (decide (fv ≠ val)) as [Hne|Heq].
      * rewrite decide_True; [done|].
        apply Exists_cons_hd. unfold differs_at. simpl. by rewrite Hf.
      * rewrite IH. apply decide_ext. rewrite Exists_cons.
        unfold differs_at at 2. simpl. rewrite Hf. tauto.
    + rewrite IH. apply decide_ext. rewrite Exists_cons.
      unfold differs_at at 2. simpl. rewrite Hf. tauto.
Qed.

Lemma range_differs g f :
  Exists (differs_at f) (range o (Checksum g)) ↔ shared_checksum_differs g f.
Proof.
  rewrite shared_checksum_differs_listed, !Exists_exists.
  by setoid_rewrite (range_perm o string (Checksum g)).
Qed.

(** One iteration appends what the classification reports of the entry. *)
Lemma Delta_body_spec pre results (entry : string * Artifact) :
  Delta_body o pre results entry =
    results ++ option_list (spec_reported pre entry).
Proof.
  destruct entry as [path f]. unfold Delta_body, spec_reported, spec_verdict. simpl.
  destruct (pre !! path) as [g|]; [|done].
  destruct (decide (Time g ≠ Time f)); [done|].
  rewrite checksum_loop_spec.
  destruct (decide (shared_checksum_differs g f)) as [Hd|Hd].
  - rewrite decide_True; [done|]. by apply range_differs.
  - rewrite decide_False; [by rewrite app_nil_r|]. by rewrite range_differs.
Qed.

Lemma Delta_fold_spec pre (entries : list (string * Artifact)) results :
  fold_left (Delta_body o pre) entries results =
    results ++ omap (spec_reported pre) entries.
Proof.
  revert results. induction entries as [|e rest IH]; intros results; simpl.
  - by rewrite app_nil_r.
  - rewrite IH, Delta_body_spec, <- app_assoc. f_equal.
    by destruct (spec_reported pre e).
Qed.

Lemma Delta_spec pre post :
  Delta o pre post = omap (spec_reported pre) (range o post).
Proof. unfold Delta. by rewrite Delta_fold_spec. Qed.

Lemma elem_of_Delta pre post a :
  a ∈ Delta o pre post ↔
    ∃ path, post !! path = Some a ∧ spec_verdict pre path a ≠ Unchanged.
Proof.
  rewrite Delta_spec, list_elem_of_omap. split.
  - intros ([path f] & Hin & Hrep). apply elem_of_range in Hin.
    unfold spec_reported in Hrep. simpl in Hrep.
    destruct (spec_verdict pre path f) eqn:Hv; simplify_eq; exists path;
      by rewrite Hv.
  - intros (path & Hpost & Hv). exists (path, a). split; [by apply elem_of_range|].
    unfold spec_reported. simpl. by destruct (spec_verdict pre path a).
Qed.

End DeltaLoop.

Section DeltaProperties.
Context (o : RangeOrder).
Implicit Types (pre post : Snapshot) (f g : Artifact).

Lemma spec_reported_sublist pre (entries : list (string * Artifact)) :
  omap (spec_reported pre) entries `sublist_of` entries.*2.
Proof.
  induction entries as [|[path f] rest IH]; simpl; [constructor|].
  unfold spec_reported at 1. simpl.
  destruct (spec_verdict pre path f); simpl;
    (by apply sublist_skip) || (by apply sublist_cons).
Qed.

Lemma spec_verdict_self post path f :
  post !! path = Some f → spec_verdict post path f = Unchanged.
Proof.
  intros Hf. unfold spec_verdict. rewrite Hf.
  rewrite decide_False by (intros Hne; by apply Hne).
  rewrite decide_False; [done|].
  intros (algo & val & fv & Hg & Hf' & Hne). congruence.
Qed.

Lemma spec_verdict_delete pre path path' f :
  path ≠ path' →
  spec_verdict (delete path pre) path' f = spec_verdict pre path' f.
Proof. intros Hne. unfold spec_verdict. by rewrite lookup_delete_ne. Qed.

Lemma omap_ext_in {A B : Type} (h1 h2 : A → option B) (l : list A) :
  (∀ x, x ∈ l → h1 x = h2 x) → omap h1 l = omap h2 l.
Proof.
  intros Hext. apply list_omap_ext, Forall2_same_length_lookup.
  split; [done|]. intros i x y Hx Hy. simplify_eq.
  apply Hext. by eapply list_elem_of_lookup_2.
Qed.

(** C1: Delta classifies every entry of post by the precedence of the
    specification. The list returned is, in the order ranged, what the
    classification reports of each entry: an identity absent from pre is
    included (added); otherwise a differing recorded time includes it
    (changed) whatever the checksums; otherwise a differing value under an
    algorithm of both entries includes it (changed); otherwise it is left
    out. Every artifact returned is such an added or changed entry. *)
Theorem Delta_classification pre post :
  Delta o pre post = omap (spec_reported pre) (range o post)
  ∧ (∀ path f, post !! path = Some f →
       match pre !! path with
       | None => f ∈ Delta o pre post
       | Some g =>
           (Time g ≠ Time f → f ∈ Delta o pre post)
           ∧ (Time g = Time f → shared_checksum_differs g f → f ∈ Delta o pre post)
           ∧ (Time g = Time f → ¬ shared_checksum_differs g f →
              ∀ results, Delta_body o pre results (path, f) = results)
       end)
  ∧ (∀ a, a ∈ Delta o pre post →
       ∃ path, post !! path = Some a ∧ spec_verdict pre path a ≠ Unchanged).
Proof.
  split; [apply Delta_spec|]. split.
  - intros path f Hpost.
    assert (Hin : spec_verdict pre path f ≠ Unchanged → f ∈ Delta o pre post).
    { intros Hv. apply elem_of_Delta. by exists path. }
    unfold spec_verdict in Hin.
    destruct (pre !! path) as [g|] eqn:Hpre; [|by apply Hin].
    split; [|split].
    + intros Hne. apply Hin. by rewrite decide_True.
    + intros Heq Hd. apply Hin. rewrite decide_False by (by intros Hne).
      by rewrite decide_True.
    + intros Heq Hd results. rewrite Delta_body_spec.
      unfold spec_reported, spec_verdict. simpl. rewrite Hpre.
      rewrite decide_False by (by intros Hne). rewrite decide_False by done.
      apply app_nil_r.
  - intros a. by rewrite elem_of_Delta.
Qed.

(** C2, as the code has it: the artifacts returned do not depend on the
    order in which the maps are ranged over, only their order in the list
    does. Two evaluations of Delta on the same pair of snapshots give the
    same artifacts the same number of times; each list follows the order in
    which that evaluation ranged over post. *)
Theorem Delta_same_artifacts_any_order (o' : RangeOrder) pre post :
  Delta o pre post ≡ₚ Delta o' pre post.
Proof.
  rewrite (Delta_spec o), (Delta_spec o').
  apply omap_Permutation, range_order_irrelevant.
Qed.

(** C3: Delta reports no deletion. Every artifact returned is an entry of
    post; an identity of pre that post lacks is the [Path] of no artifact
    returned (for a post keyed by path), and removing it from pre changes
    nothing of the result. *)
Theorem Delta_reports_no_deletion pre post :
  (∀ a, a ∈ Delta o pre post → ∃ path, post !! path = Some a)
  ∧ (∀ path, is_Some (pre !! path) → post !! path = None →
       (keyed_by_path post → ∀ a, a ∈ Delta o pre post → Path a ≠ path)
       ∧ Delta o (delete path pre) post = Delta o pre post).
Proof.
  split.
  - intros a Ha. apply elem_of_Delta in Ha as (path & Hpost & _). by exists path.
  - intros path _ Hnone. split.
    + intros Hkeyed a Ha Hpath.
      apply elem_of_Delta in Ha as (path' & Hpost & _).
      apply Hkeyed in Hpost as Hp. congruence.
    + rewrite !Delta_spec. apply omap_ext_in.
      intros [path' f] Hin. apply elem_of_range in Hin.
      unfold spec_reported. simpl. rewrite spec_verdict_delete; [done|].
      intros ->. congruence.
Qed.

(** C4: the delta of a snapshot against itself is empty. *)
Theorem Delta_self_empty (S : Snapshot) : Delta o S S = [].
Proof.
  rewrite Delta_spec.
  rewrite (omap_ext_in _ (λ _, None)).
  - by induction (range o S).
  - intros [path f] Hin. apply elem_of_range in Hin.
    unfold spec_reported. simpl. by rewrite spec_verdict_self.
Qed.

(** The entries of post that the delta reports, in the order ranged. *)
Lemma spec_reported_filter pre (entries : list (string * Artifact)) :
  omap (spec_reported pre) entries
  = (filter (λ e, spec_verdict pre e.1 e.2 ≠ Unchanged) entries).*2.
Proof.
  induction entries as [|[path f] rest IH]; [done|].
  change (omap (spec_reported pre) ((path, f) :: rest))
    with (match spec_reported pre (path, f) with
          | Some a => a :: omap (spec_reported pre) rest
          | None => omap (spec_reported pre) rest
          end).
  rewrite IH. unfold spec_reported. simpl.
  destruct (spec_verdict pre path f) eqn:Hv.
  - rewrite filter_cons_True by (simpl; by rewrite Hv). done.
  - rewrite filter_cons_True by (simpl; by rewrite Hv). done.
  - rewrite filter_cons_False by (simpl; rewrite Hv; by intros Hne). done.
Qed.

(** The artifacts of a snapshot keyed by path are pairwise different. *)
Lemma keyed_range_values_NoDup post :
  keyed_by_path post → NoDup (range o post).*2.
Proof.
  intros Hkeyed. apply (NoDup_fmap_1 Path).
  assert (Heq : Path <$> (range o post).*2 = (range o post).*1).
  { assert (Hall : ∀ e, e ∈ range o post → Path e.2 = e.1).
    { intros [path a] Hin. apply elem_of_range in Hin. by apply Hkeyed. }
    induction (range o post) as [|e rest IH]; [done|]. simpl. f_equal.
    - apply Hall. by left.
    - apply IH. intros e' He'. apply Hall. by right. }
  rewrite Heq. apply range_NoDup_keys.
Qed.

(** C10: an entry of post is appended exactly once when it is added or
    changed, and not at all otherwise. One pass of the inner loop leaves the
    results as they were or with one more [f], whatever the number of
    entries that differ; so does one iteration of the outer loop; the list
    returned is a subsequence of the artifacts of post in the order ranged,
    no longer than post has entries. It is the list of the artifacts of the
    added and changed entries of post, each identity once. In particular an
    entry whose time is unchanged and which differs from pre under one or
    more shared algorithms makes its iteration append exactly one copy, and
    is in the list returned; and when post is keyed by path no artifact
    occurs twice in it, so that artifact occurs exactly once. *)
Theorem Delta_appends_entry_once pre post :
  (∀ f results (entries : list (string * string)),
     checksum_loop f results entries =
       if decide (Exists (differs_at f) entries) then results ++ [f] else results)
  ∧ (∀ results (entry : string * Artifact),
       Delta_body o pre results entry = results
       ∨ Delta_body o pre results entry = results ++ [entry.2])
  ∧ Delta o pre post `sublist_of` (range o post).*2
  ∧ length (Delta o pre post) ≤ size post
  ∧ (∃ reported : list (string * Artifact),
       Delta o pre post = reported.*2
       ∧ NoDup reported.*1
       ∧ reported `sublist_of` range o post
       ∧ ∀ path f, (path, f) ∈ reported
                   ↔ post !! path = Some f ∧ spec_verdict pre path f ≠ Unchanged)
  ∧ (∀ path f g,
       post !! path = Some f →
       pre !! path = Some g →
       Time g = Time f →
       shared_checksum_differs g f →
       (∀ results, Delta_body o pre results (path, f) = results ++ [f])
       ∧ f ∈ Delta o pre post)
  ∧ (keyed_by_path post → NoDup (Delta o pre post)).
Proof.
  split; [apply checksum_loop_spec|]. split; [|split; [|split; [|split; [|split]]]].
  - intros results entry. rewrite Delta_body_spec. unfold spec_reported.
    destruct (spec_verdict pre entry.1 entry.2); simpl; auto using app_nil_r.
  - rewrite Delta_spec. apply spec_reported_sublist.
  - rewrite Delta_spec, <- (range_length o post).
    rewrite <- (length_fmap snd (range o post)).
    apply sublist_length, spec_reported_sublist.
  - exists (filter (λ e, spec_verdict pre e.1 e.2 ≠ Unchanged) (range o post)).
    split; [by rewrite Delta_spec, spec_reported_filter|].
    split; [|split; [apply sublist_filter|]].
    + apply (sublist_NoDup _ (range o post).*1); [apply range_NoDup_keys|].
      apply fmap_sublist, sublist_filter.
    + intros path f. rewrite list_elem_of_filter, elem_of_range. simpl. tauto.
  - intros path f g Hpost Hpre Htime Hdiffers.
    assert (Hv : spec_verdict pre path f = Changed).
    { unfold spec_verdict. rewrite Hpre.
      rewrite decide_False by (by intros Hne). by rewrite decide_True. }
    split.
    + intros results. rewrite Delta_body_spec. unfold spec_reported. simpl.
      by rewrite Hv.
    + apply elem_of_Delta. exists path. split; [done|]. by rewrite Hv.
  - intros Hkeyed.
    apply (sublist_NoDup _ (range o post).*2);
      [by apply keyed_range_values_NoDup|].
    rewrite Delta_spec. apply spec_reported_sublist.
Qed.

End DeltaProperties.

(** *** Delta on concrete snapshots *)

(** The four cases of the Directory driver's test. *)
Example Delta_empty_directories : Delta listed ∅ ∅ = [].
Proof. reflexivity. Qed.

Example Delta_file_untouched :
  Delta listed (one_file (test_txt writeTime sha256_test))
               (one_file (test_txt writeTime sha256_test)) = [].
Proof. vm_compute. reflexivity. Qed.

Example Delta_file_rewritten :
  Delta listed (one_file (test_txt writeTime sha256_test))
               (one_file (test_txt fixedTime sha256_test))
  = [test_txt fixedTime sha256_test].
Proof. vm_compute. reflexivity. Qed.

Example Delta_file_contents_changed :
  Delta listed (one_file (test_txt fixedTime sha256_test))
               (one_file (test_txt fixedTime sha256_changed))
  = [test_txt fixedTime sha256_changed].
Proof. vm_compute. reflexivity. Qed.

(** Time precedence at the rewritten file: same checksum, other time. *)
Lemma Delta_classification_witness :
  Time (test_txt writeTime sha256_test) ≠ Time (test_txt fixedTime sha256_test)
  ∧ test_txt fixedTime sha256_test
      ∈ Delta listed (one_file (test_txt writeTime sha256_test))
                     (one_file (test_txt fixedTime sha256_test)).
Proof.
  assert (Hne : Time (test_txt writeTime sha256_test)
                ≠ Time (test_txt fixedTime sha256_test)) by discriminate.
  split; [exact Hne|].
  exact (proj1 (proj1 (proj2 (Delta_classification listed
           (one_file (test_txt writeTime sha256_test))
           (one_file (test_txt fixedTime sha256_test))))
         "test.txt" (test_txt fixedTime sha256_test) eq_refl) Hne).
Defined.

(** C2 fails as stated: the same pair of snapshots, ranged over in two
    orders, gives two different lists. *)
Lemma Delta_order_follows_range :
  Delta listed ∅ two_added ≠ Delta reversed ∅ two_added.
Proof. vm_compute. discriminate. Qed.

(** A file deleted by the build: [old.txt] is in pre only. *)
Lemma Delta_reports_no_deletion_witness :
  is_Some (with_old_file !! "old.txt")
  ∧ one_file (test_txt fixedTime sha256_changed) !! "old.txt" = None
  ∧ (∀ a, a ∈ Delta listed with_old_file (one_file (test_txt fixedTime sha256_changed)) →
          Path a ≠ "old.txt")
  ∧ Delta listed (delete "old.txt" with_old_file)
                 (one_file (test_txt fixedTime sha256_changed))
    = Delta listed with_old_file (one_file (test_txt fixedTime sha256_changed)).
Proof.
  assert (Hpre : is_Some (with_old_file !! "old.txt")) by (by eexists).
  assert (Hpost : one_file (test_txt fixedTime sha256_changed) !! "old.txt" = None)
    by reflexivity.
  assert (Hkeyed : keyed_by_path (one_file (test_txt fixedTime sha256_changed))).
  { intros path a. unfold one_file. simpl.
    intros [<- <-]%lookup_singleton_Some. reflexivity. }
  split; [exact Hpre|]. split; [exact Hpost|].
  destruct (proj2 (Delta_reports_no_deletion listed with_old_file
                     (one_file (test_txt fixedTime sha256_changed)))
              "old.txt" Hpre Hpost) as [Hpath Hdel].
  split; [exact (Hpath Hkeyed)|exact Hdel].
Defined.

(** Two shared algorithms, both with differing values: one artifact. *)
Example Delta_two_algorithms_differ :
  let old := {| Path := "bin/a"; Time := fixedTime;
                Checksum := <[ "SHA1" := "11" ]> {[ "SHA256" := "22" ]} |} in
  let new := {| Path := "bin/a"; Time := fixedTime;
                Checksum := <[ "SHA1" := "33" ]> {[ "SHA256" := "44" ]} |} in
  Delta listed (one_file old) (one_file new) = [new]
  ∧ Delta reversed (one_file old) (one_file new) = [new].
Proof. vm_compute. split; reflexivity. Qed.

(** Both algorithms differ: the iteration appends one copy, the artifact is
    in the delta, and the delta holds nothing twice. *)
Lemma Delta_appends_entry_once_witness :
  (∀ results,
     Delta_body listed (one_file two_sums_old) results ("bin/a", two_sums_new)
     = results ++ [two_sums_new])
  ∧ two_sums_new ∈ Delta listed (one_file two_sums_old) (one_file two_sums_new)
  ∧ NoDup (Delta listed (one_file two_sums_old) (one_file two_sums_new)).
Proof.
  pose proof (Delta_appends_entry_once listed (one_file two_sums_old)
                (one_file two_sums_new)) as (_ & _ & _ & _ & _ & Hchanged & Hnodup).
  destruct (Hchanged "bin/a" two_sums_new two_sums_old eq_refl eq_refl eq_refl)
    as [Hbody Hin].
  { exists "SHA1", "11", "33". by repeat split. }
  split; [exact Hbody|]. split; [exact Hin|].
  apply Hnodup. intros path a. unfold one_file. simpl.
  intros [<- <-]%lookup_singleton_Some. reflexivity.
Defined.

(** ** Delta on pointers: the heap is only read *)

Section DeltaHeap.
Context (o : RangeOrder).
Implicit Types (h : Heap) (snap post : N) (results : list Artifact).

Lemma load_frame p h s h' : load p h = Some (s, h') → h' = h ∧ h !! p = Some s.
Proof. unfold load. destruct (h !! p); naive_solver. Qed.

Lemma Delta_step_frame snap results (entry : string * Artifact) h res h' :
  Delta_step o snap results entry h = Some (res, h') → h' = h.
Proof.
  destruct entry as [path f]. unfold Delta_step, bind, ret, load.
  destruct (h !! snap) as [pre|] eqn:Hsnap; [|done].
  case_decide; [congruence|]. rewrite Hsnap.
  case_decide; [congruence|]. rewrite Hsnap. congruence.
Qed.

Lemma Delta_step_value snap results (entry : string * Artifact) h pre :
  h !! snap = Some pre →
  Delta_step o snap results entry h = Some (Delta_body o pre results entry, h).
Proof.
  intros Hsnap. destruct entry as [path f].
  unfold Delta_step, Delta_body, bind, ret, load, index. rewrite Hsnap.
  destruct (pre !! path) as [g|] eqn:Hpre.
  - rewrite decide_False by done. rewrite Hsnap. simpl. rewrite Hpre. simpl.
    destruct (decide (Time g ≠ Time f)); [done|]. by rewrite Hsnap, Hpre.
  - by rewrite decide_True.
Qed.

Lemma foldM_Delta_step_frame snap (entries : list (string * Artifact)) results h res h' :
  foldM (Delta_step o snap) entries results h = Some (res, h') → h' = h.
Proof.
  revert results h. induction entries as [|e rest IH]; intros results h; simpl.
  - unfold ret. congruence.
  - unfold bind at 1.
    destruct (Delta_step o snap results e h) as [[acc h1]|] eqn:Hstep; [|done].
    apply Delta_step_frame in Hstep as ->. apply IH.
Qed.

Lemma foldM_Delta_step_value snap (entries : list (string * Artifact)) results h pre :
  h !! snap = Some pre →
  foldM (Delta_step o snap) entries results h
  = Some (fold_left (Delta_body o pre) entries results, h).
Proof.
  intros Hsnap. revert results.
  induction entries as [|e rest IH]; intros results; simpl; [done|].
  unfold bind at 1. rewrite (Delta_step_value _ _ _ _ pre Hsnap). apply IH.
Qed.

(** C9: Delta does not write to its arguments. Whenever the method returns,
    the heap (and so the snapshot behind each of the two pointers, which may
    be one and the same) is what it was at the call; and when both pointers
    hold snapshots it does return, with the delta of the two values. *)
Theorem Snapshot_Delta_leaves_heap snap post h :
  (∀ res h', Snapshot_Delta o snap post h = Some (res, h') →
     h' = h ∧ h' !! snap = h !! snap ∧ h' !! post = h !! post)
  ∧ (∀ pre entries, h !! snap = Some pre → h !! post = Some entries →
       Snapshot_Delta o snap post h = Some (Delta o pre entries, h)).
Proof.
  split.
  - intros res h'. unfold Snapshot_Delta, bind at 1.
    destruct (load post h) as [[entries h1]|] eqn:Hload; [|done].
    apply load_frame in Hload as [-> _].
    intros ->%foldM_Delta_step_frame. done.
  - intros pre entries Hsnap Hpost. unfold Snapshot_Delta, bind at 1, load.
    rewrite Hpost. by apply foldM_Delta_step_value.
Qed.

End DeltaHeap.

(** The pre snapshot at address 1, the post snapshot at address 2. *)
Lemma Snapshot_Delta_leaves_heap_witness :
  let h : Heap := <[ 1%N := one_file (test_txt fixedTime sha256_test) ]>
                    {[ 2%N := one_file (test_txt fixedTime sha256_changed) ]} in
  Snapshot_Delta listed 1 2 h
  = Some (Delta listed (one_file (test_txt fixedTime sha256_test))
                       (one_file (test_txt fixedTime sha256_changed)), h).
Proof.
  intros h.
  exact (proj2 (Snapshot_Delta_leaves_heap listed 1 2 h) _ _ eq_refl eq_refl).
Defined.

(** A snapshot compared with itself through one pointer. *)
Example Snapshot_Delta_aliased :
  let h : Heap := {[ 7%N := one_file (test_txt fixedTime sha256_test) ]} in
  Snapshot_Delta reversed 7 7 h = Some ([], h).
Proof. vm_compute. reflexivity. Qed.

(** ** Watch *)

Section WatchLoop.
Context {World : Type} (b : Builder World).

Lemma refresh_calls_polls n : refresh_calls (polls n) = n.
Proof.
  unfold refresh_calls. induction n as [|n IH]; [done|]. cbn [polls].
  rewrite filter_cons_True by done. rewrite filter_cons_False by done.
  simpl. by f_equal.
Qed.

(** C5: the poll loop ends with the run. When the run reports not running
    after [n] calls of RefreshRun (and not before), Watch, given fuel for
    more than [n] rounds, returns no error, with the run and the backend as
    the [n]-th call left them, after exactly [n] refresh calls, each followed
    by the sleep: none is made once IsRunning is read false. For a run that
    is not running at the call it returns at once, with no call made. *)
Theorem Watch_returns_when_run_stops :
  (∀ n fuel r w rf wf events,
     flips_after b n r w rf wf → n < fuel →
     Watch b fuel r w events = Some (None, rf, wf, events ++ polls n)
     ∧ refresh_calls (polls n) = n
     ∧ IsRunning rf = false)
  ∧ (∀ fuel r w events,
       IsRunning r = false →
       Watch b (S fuel) r w events = Some (None, r, w, events)).
Proof.
  split.
  - intros n fuel r w rf wf events Hflips. revert fuel events.
    induction Hflips as [r w Hstop|n r w r' w' rf wf Hrun Href _ IH];
      intros fuel events Hfuel.
    + destruct fuel as [|fuel]; [lia|]. simpl. rewrite Hstop. simpl.
      by rewrite app_nil_r.
    + destruct fuel as [|fuel]; [lia|]. simpl. rewrite Hrun, Href. simpl.
      destruct (IH fuel (events ++ [EvRefresh; EvSleep 3])) as (-> & _ & Hrf); [lia|].
      rewrite <- app_assoc. split; [done|]. split; [|done].
      apply (refresh_calls_polls (S n)).
  - intros fuel r w events Hstop. simpl. by rewrite Hstop.
Qed.

End WatchLoop.

(** A run that the build system finishes at its second refresh. *)
Lemma Watch_returns_when_run_stops_witness :
  Watch countdown 5 (mkRun "gcb://project/build" true) 2 []
  = Some (None, mkRun "gcb://project/build" false, 0,
          [EvRefresh; EvSleep 3; EvRefresh; EvSleep 3])
  ∧ Watch countdown 1 (mkRun "gcb://project/build" false) 2 []
    = Some (None, mkRun "gcb://project/build" false, 2, []).
Proof.
  split.
  - refine (proj1 (proj1 (Watch_returns_when_run_stops countdown)
                     2 5 _ 2 _ 0 [] _ _)); [|lia].
    eapply flips_later; [reflexivity|reflexivity|].
    eapply flips_later; [reflexivity|reflexivity|].
    by apply flips_now.
  - exact (proj2 (Watch_returns_when_run_stops countdown)
             0 (mkRun "gcb://project/build" false) 2 [] eq_refl).
Defined.

(** A refresh that fails ends the loop with that error. *)
Example Watch_refresh_error :
  Watch {| RefreshRun := λ r (w : unit), (Some "backend unreachable", r, w) |}
        3 (mkRun "gcb://project/build" true) () []
  = Some (Some "refreshing run data: backend unreachable",
          mkRun "gcb://project/build" true, (), [EvRefresh]).
Proof. reflexivity. Qed.

(** ** The GCS driver *)

(** C6 on the code: the listing loop skips a named plain-text object when
    its size is greater than zero, not when it is zero. On the bucket
    [build_bucket] the empty plain-text object [build/EMPTY], which is no
    directory marker, is scheduled and downloaded, and the plain-text file
    [build/notes.txt] of five bytes is skipped; the binary is downloaded. *)
Theorem syncGCSPrefix_skips_nonempty_text :
  driver.entry_action {[ "build/" ]} empty_note = driver.Schedule "build/EMPTY"
  ∧ driver.entry_action {[ "build/" ]} notes_txt = driver.Skip
  ∧ driver.entry_action {[ "build/" ]} app_bin = driver.Schedule "build/app"
  ∧ (driver.trace <$>
       (snd <$> driver.syncGCSPrefix 1 build_bucket build_store "build/"
                  {| driver.seen := ∅; driver.trace := [] |}))
    = Some [ driver.EvObjects "releases" "build/";
             driver.EvMkdirAll "/tmp/w/build";
             driver.EvOpenFile "/tmp/w/build/EMPTY";
             driver.EvNewReader "releases" "build/EMPTY";
             driver.EvCopy "/tmp/w/build/EMPTY";
             driver.EvClose "build/EMPTY";
             driver.EvMkdirAll "/tmp/w/build";
             driver.EvOpenFile "/tmp/w/build/app";
             driver.EvNewReader "releases" "build/app";
             driver.EvCopy "/tmp/w/build/app";
             driver.EvClose "build/app" ].
Proof. vm_compute. repeat split; reflexivity. Qed.

(** What the loop does with a named object that is no directory marker,
    under a prefix already seen: skipped exactly when plain text of
    positive size. *)
Lemma entry_action_named_object (seen : gset string) (attrs : driver.ObjectAttrs) :
  driver.Name attrs ≠ "" →
  GoStrings.HasSuffix (driver.Name attrs) "/" = false →
  driver.entry_action seen attrs =
    if decide ((driver.Size attrs > 0)%Z ∧ driver.ContentType attrs = "text/plain")
    then driver.Skip
    else driver.Schedule (driver.Prefix attrs +:+ driver.Name attrs).
Proof.
  intros Hname Hsuffix. unfold driver.entry_action.
  rewrite decide_False by tauto.
  rewrite decide_False by (rewrite Hsuffix; intros [? _]; done).
  repeat case_decide; try done; tauto.
Qed.

(** C7: a GCS store without a path or without a bucket is refused before
    anything is listed or copied: Snap returns a nil snapshot and an error,
    and has made no call, whatever the bucket holds and whatever the fuel. *)
Theorem Snap_refuses_missing_bucket_or_path
    (o : RangeOrder) (fuel : nat) (c : driver.Cloud) (gcs : driver.GCS) :
  driver.Path gcs = "" ∨ driver.Bucket gcs = "" →
  ∃ err, driver.Snap o fuel c gcs = Some (driver.Return (None, Some err), []).
Proof.
  intros Hmissing. unfold driver.Snap.
  destruct (decide (driver.Path gcs = "")); [by eexists|].
  destruct (decide (driver.Bucket gcs = "")); [by eexists|].
  by destruct Hmissing.
Qed.

Lemma Snap_refuses_missing_bucket_or_path_witness :
  ∃ err, driver.Snap listed 0 build_bucket
           {| driver.Bucket := ""; driver.Path := "/build/"; driver.WorkDir := "/tmp/w" |}
         = Some (driver.Return (None, Some err), []).
Proof.
  apply (Snap_refuses_missing_bucket_or_path listed 0 build_bucket). by right.
Defined.

(** With both set, Snap lists the prefix before anything else. *)
Example Snap_lists_configured_store :
  (λ r, head r.2) <$> driver.Snap listed 1 build_bucket build_store
  = Some (Some (driver.EvObjects "releases" "build/")).
Proof. vm_compute. reflexivity. Qed.

(** Every artifact of the snapshot that Snap builds is keyed by its path. *)
Lemma rewrite_paths_keyed (o : RangeOrder) (c : driver.Cloud) (gcs : driver.GCS)
    (snapDir : Snapshot) :
  keyed_by_path (driver.rewrite_paths o c gcs snapDir).
Proof.
  unfold driver.rewrite_paths.
  assert (Hgen : ∀ (entries : list (string * Artifact)) (acc : Snapshot),
             keyed_by_path acc →
             keyed_by_path
               (fold_left
                  (λ (snap : Snapshot) (entry : string * Artifact),
                     let a := entry.2 in
                     let path := "gs://" +:+
                       (driver.filepath_Join c (driver.Bucket gcs)
                          (GoStrings.TrimPrefix (Path a) (driver.WorkDir gcs))) in
                     <[path := {| Path := path; Time := Time a;
                                  Checksum := Checksum a |}]> snap)
                  entries acc)).
  { induction entries as [|e rest IH]; intros acc Hacc; simpl; [done|].
    apply IH. intros path a. rewrite lookup_insert_Some.
    intros [[<- <-]|[_ Hin]]; [done|by apply Hacc]. }
  apply Hgen. intros path a. by rewrite lookup_empty.
Qed.

(** ** The VCS material of the start command *)

Lemma HasPrefix_at_sign (a : Ascii.ascii) (s : string) :
  GoStrings.HasPrefix (String a s) "@" = bool_decide (a = "@"%char).
Proof.
  simpl. unfold bool_decide. reflexivity.
Qed.

Lemma Cut_at_first_separator (before after : string) :
  GoStrings.occurs "@" before = false →
  GoStrings.Cut (before +:+ "@" +:+ after) "@" = (before, after, true).
Proof.
  induction before as [|a before IH]; intros Hocc.
  - reflexivity.
  - simpl in Hocc. destruct (decide (a = "@"%char)) as [|Hne]; [done|].
    change (String a before +:+ "@" +:+ after)
      with (String a (before +:+ "@" +:+ after)).
    cbn [GoStrings.Cut]. rewrite HasPrefix_at_sign.
    rewrite bool_decide_eq_false_2 by done. by rewrite IH.
Qed.

(** C8: a locator with an [@] gives a material whose URI is what stands
    left of the first [@] and whose digest map is the single entry of key
    sha1 with what stands right of it; that material is appended to the
    predicate's materials. *)
Theorem vcs_material_of_pinned_locator
    (before after : string) (predicate : cmd.SLSAPredicate) :
  GoStrings.occurs "@" before = false →
  cmd.add_vcs_material (before +:+ "@" +:+ after) predicate
  = {| cmd.Materials :=
         cmd.Materials predicate
         ++ [ {| cmd.URI := before; cmd.Digest := {[ "sha1" := after ]} |} ] |}
  ∧ size (cmd.Digest (cmd.vcs_material (before +:+ "@" +:+ after))) = 1.
Proof.
  intros Hocc. unfold cmd.add_vcs_material, cmd.vcs_material.
  rewrite (Cut_at_first_separator before after Hocc). simpl.
  rewrite insert_empty, map_size_singleton. split; [|done].
  rewrite decide_True; [done|]. by destruct before.
Qed.

Lemma vcs_material_of_pinned_locator_witness :
  cmd.add_vcs_material
    "https://github.com/kubernetes-sigs/tejolote@5a4bcb8e41c5a9418ac3d0d15e4d4bb4e1cc3fe6"
    {| cmd.Materials := [] |}
  = {| cmd.Materials :=
         [ {| cmd.URI := "https://github.com/kubernetes-sigs/tejolote";
              cmd.Digest := {[ "sha1" := "5a4bcb8e41c5a9418ac3d0d15e4d4bb4e1cc3fe6" ]} |} ] |}.
Proof.
  exact (proj1 (vcs_material_of_pinned_locator
                  "https://github.com/kubernetes-sigs/tejolote"
                  "5a4bcb8e41c5a9418ac3d0d15e4d4bb4e1cc3fe6"
                  {| cmd.Materials := [] |} eq_refl)).
Defined.

(** Without an [@] the locator is the URI and the digest map is empty; an
    empty locator adds no material. *)
Example vcs_material_unpinned :
  cmd.add_vcs_material "https://github.com/kubernetes-sigs/tejolote" {| cmd.Materials := [] |}
  = {| cmd.Materials :=
         [ {| cmd.URI := "https://github.com/kubernetes-sigs/tejolote"; cmd.Digest := ∅ |} ] |}
  ∧ cmd.add_vcs_material "" {| cmd.Materials := [] |} = {| cmd.Materials := [] |}.
Proof. vm_compute. split; reflexivity. Qed.

(** * Further properties of the code *)

(** ** Delta: empty snapshots, growth of post, what pre is read for *)

Section DeltaFurther.
Context (o : RangeOrder).
Implicit Types (pre post : Snapshot) (f g : Artifact).

Lemma range_empty {V : Type} : range o (∅ : gmap string V) = [].
Proof.
  apply Permutation_nil_r. rewrite (range_perm o V ∅). by rewrite map_to_list_empty.
Qed.

Lemma range_singleton {V : Type} (k : string) (v : V) :
  range o ({[ k := v ]} : gmap string V) = [(k, v)].
Proof.
  apply Permutation_singleton_r.
  rewrite (range_perm o V {[ k := v ]}). by rewrite map_to_list_singleton.
Qed.

(** X1: against an empty earlier snapshot every artifact of post is
    reported, once, in the order ranged; an empty later snapshot gives the
    empty list whatever pre holds. *)
Theorem Delta_of_empty_snapshots pre post :
  Delta o ∅ post = (range o post).*2 ∧ Delta o pre ∅ = [].
Proof.
  split.
  - rewrite Delta_spec. induction (range o post) as [|[path f] rest IH]; [done|].
    simpl. unfold spec_reported at 1, spec_verdict. simpl.
    rewrite lookup_empty. simpl. by f_equal.
  - rewrite Delta_spec. by rewrite range_empty.
Qed.

(** X2: an artifact stored in post under a new identity adds to the delta
    what it gives alone, and nothing else changes. *)
Theorem Delta_insert_post pre post path f :
  post !! path = None →
  Delta o pre (<[ path := f ]> post) ≡ₚ Delta o pre {[ path := f ]} ++ Delta o pre post.
Proof.
  intros Hnew. rewrite !Delta_spec, range_singleton, <- omap_app.
  apply omap_Permutation. simpl.
  rewrite (range_perm o _ (<[path:=f]> post)), (range_perm o _ post).
  by apply map_to_list_insert.
Qed.

(** X3: a file whose time is unchanged and whose two checksum maps share
    no algorithm is not noticed, whatever its content: the delta is that of
    post without it. *)
Theorem Delta_unshared_algorithms_unnoticed pre post path g f :
  pre !! path = Some g →
  post !! path = Some f →
  Time g = Time f →
  dom (Checksum g) ## dom (Checksum f) →
  Delta o pre post ≡ₚ Delta o pre (delete path post).
Proof.
  intros Hpre Hpost Htime Hdisj. rewrite !Delta_spec.
  rewrite (omap_Permutation _ _ ((path, f) :: range o (delete path post))).
  - simpl. unfold spec_reported at 1, spec_verdict. simpl. rewrite Hpre.
    rewrite decide_False by (by intros Hne).
    rewrite decide_False; [done|].
    intros (algo & val & fv & Hg & Hf & _).
    apply (Hdisj algo); apply elem_of_dom; eauto.
  - rewrite (range_perm o _ post), (range_perm o _ (delete path post)).
    symmetry. by apply map_to_list_delete.
Qed.

(** X4: Delta reads pre only at the identities of post: two earlier
    snapshots that agree there give the same list. *)
Theorem Delta_reads_pre_at_post_identities pre pre' post :
  (∀ path, is_Some (post !! path) → pre !! path = pre' !! path) →
  Delta o pre post = Delta o pre' post.
Proof.
  intros Hagree. rewrite !Delta_spec. apply omap_ext_in.
  intros [path f] Hin. apply elem_of_range in Hin.
  unfold spec_reported, spec_verdict. simpl.
  by rewrite (Hagree path) by eauto.
Qed.

(** X5: when post is keyed by the paths of its artifacts, no artifact is
    listed twice. *)
Theorem Delta_no_duplicates pre post :
  keyed_by_path post → NoDup (Delta o pre post).
Proof.
  intros Hkeyed.
  apply (sublist_NoDup _ (range o post).*2);
    [|rewrite Delta_spec; apply spec_reported_sublist].
  apply (NoDup_fmap_1 Path).
  assert (Heq : Path <$> (range o post).*2 = (range o post).*1).
  { assert (Hall : ∀ e, e ∈ range o post → Path e.2 = e.1).
    { intros [path a] Hin. apply elem_of_range in Hin. by apply Hkeyed. }
    induction (range o post) as [|e rest IH]; [done|]. simpl. f_equal.
    - apply Hall. by left.
    - apply IH. intros e' He'. apply Hall. by right. }
  rewrite Heq. apply range_NoDup_keys.
Qed.

End DeltaFurther.

Lemma Delta_insert_post_witness :
  Delta listed (one_file (test_txt fixedTime sha256_test))
        (<[ "bin/a" := {| Path := "bin/a"; Time := fixedTime; Checksum := ∅ |} ]>
           (one_file (test_txt fixedTime sha256_changed)))
  ≡ₚ Delta listed (one_file (test_txt fixedTime sha256_test))
       {[ "bin/a" := {| Path := "bin/a"; Time := fixedTime; Checksum := ∅ |} ]}
     ++ Delta listed (one_file (test_txt fixedTime sha256_test))
          (one_file (test_txt fixedTime sha256_changed)).
Proof.
  exact (Delta_insert_post listed _ (one_file (test_txt fixedTime sha256_changed))
           "bin/a" _ eq_refl).
Defined.

(** The same file hashed with SHA1 before the build and SHA256 after it. *)
Lemma Delta_unshared_algorithms_unnoticed_witness :
  Delta listed (one_file test_txt_sha1) (one_file (test_txt fixedTime sha256_changed))
  ≡ₚ Delta listed (one_file test_txt_sha1)
       (delete "test.txt" (one_file (test_txt fixedTime sha256_changed))).
Proof.
  refine (Delta_unshared_algorithms_unnoticed listed
            (one_file test_txt_sha1) (one_file (test_txt fixedTime sha256_changed))
            "test.txt" test_txt_sha1 (test_txt fixedTime sha256_changed)
            eq_refl eq_refl eq_refl _).
  simpl. rewrite !dom_singleton_L. set_solver.
Defined.

Lemma Delta_reads_pre_at_post_identities_witness :
  Delta listed with_old_file (one_file (test_txt fixedTime sha256_changed))
  = Delta listed (one_file (test_txt fixedTime sha256_test))
      (one_file (test_txt fixedTime sha256_changed)).
Proof.
  apply (Delta_reads_pre_at_post_identities listed).
  intros path [a Ha]. unfold one_file in Ha. simpl in Ha.
  apply lookup_singleton_Some in Ha as [<- _]. reflexivity.
Defined.

Lemma Delta_no_duplicates_witness : NoDup (Delta listed ∅ two_added).
Proof.
  apply (Delta_no_duplicates listed). intros path a.
  unfold two_added. rewrite lookup_insert_Some, lookup_singleton_Some.
  intros [[<- <-]|[_ [<- <-]]]; reflexivity.
Defined.

(** ** Watch: errors, the meaning of a nil result, runs that never end *)

Section WatchFurther.
Context {World : Type} (b : Builder World).

(** X6: a refresh that fails ends the watch at once. After [n] rounds that
    succeed, the failing call is the last thing Watch does: it returns the
    error wrapped as refreshing run data, no sleep follows, and the run is
    as the failing call left it. *)
Theorem Watch_refresh_error_aborts n fuel r w e rf wf events :
  fails_after b n r w e rf wf →
  n < fuel →
  Watch b fuel r w events
  = Some (Some ("refreshing run data: " +:+ e), rf, wf,
          events ++ polls n ++ [EvRefresh]).
Proof.
  intros Hfails. revert fuel events.
  induction Hfails as [r w e rf wf Hrun Href|n r w r' w' e rf wf Hrun Href _ IH];
    intros fuel events Hfuel; (destruct fuel as [|fuel]; [lia|]); simpl;
    rewrite Hrun, Href; simpl.
  - done.
  - rewrite IH by lia. by rewrite <- app_assoc.
Qed.

(** X7: Watch returns nil only for a run that has stopped: the run it
    leaves is not running, and what it did is a number of rounds of refresh
    and sleep, all of them on a run still reported running. *)
Theorem Watch_nil_means_stopped fuel r w events rf wf events' :
  Watch b fuel r w events = Some (None, rf, wf, events') →
  IsRunning rf = false
  ∧ ∃ n, n < fuel ∧ flips_after b n r w rf wf ∧ events' = events ++ polls n.
Proof.
  revert r w events. induction fuel as [|fuel IH]; intros r w events; simpl; [done|].
  destruct (IsRunning r) eqn:Hrun; simpl.
  - destruct (RefreshRun b r w) as [[[e|] r'] w'] eqn:Href; [done|].
    intros [Hstop (n & Hn & Hflips & ->)]%IH. split; [done|].
    exists (S n). split; [lia|]. split; [by eapply flips_later|].
    by rewrite <- app_assoc.
  - intros [= <- <- <-]. split; [done|].
    exists 0. split; [lia|]. split; [by apply flips_now|]. by rewrite app_nil_r.
Qed.

(** X8: Watch has no way out of a run that stays running: when every
    refresh succeeds and reports the run running, no amount of fuel makes
    it return. *)
Theorem Watch_never_returns_while_running fuel r w events :
  (∀ r0 w0, ∃ r' w', RefreshRun b r0 w0 = (None, r', w') ∧ IsRunning r' = true) →
  IsRunning r = true →
  Watch b fuel r w events = None.
Proof.
  intros Halways. revert r w events.
  induction fuel as [|fuel IH]; intros r w events Hrun; simpl; [done|].
  rewrite Hrun. simpl.
  destruct (Halways r w) as (r' & w' & -> & Hrun'). by apply IH.
Qed.

End WatchFurther.

(** The backend fails at the third refresh. *)
Lemma Watch_refresh_error_aborts_witness :
  Watch flaky 4 (mkRun "gcb://project/build" true) 2 []
  = Some (Some "refreshing run data: backend unreachable",
          mkRun "gcb://project/build" true, 0,
          [EvRefresh; EvSleep 3; EvRefresh; EvSleep 3; EvRefresh]).
Proof.
  refine (Watch_refresh_error_aborts flaky 2 4 (mkRun "gcb://project/build" true) 2
            "backend unreachable" (mkRun "gcb://project/build" true) 0 [] _ _); [|lia].
  eapply fails_later; [reflexivity|reflexivity|].
  eapply fails_later; [reflexivity|reflexivity|].
  by apply fails_now.
Defined.

Lemma Watch_nil_means_stopped_witness :
  IsRunning (mkRun "gcb://project/build" false) = false
  ∧ ∃ n, n < 5
         ∧ flips_after countdown n (mkRun "gcb://project/build" true) 2
             (mkRun "gcb://project/build" false) 0
         ∧ [EvRefresh; EvSleep 3; EvRefresh; EvSleep 3] = [] ++ polls n.
Proof.
  exact (Watch_nil_means_stopped countdown 5 (mkRun "gcb://project/build" true) 2 []
           (mkRun "gcb://project/build" false) 0
           [EvRefresh; EvSleep 3; EvRefresh; EvSleep 3] eq_refl).
Defined.

Lemma Watch_never_returns_while_running_witness :
  Watch endless 1000 (mkRun "gcb://project/build" true) () [] = None.
Proof.
  apply (Watch_never_returns_while_running endless); [|reflexivity].
  intros r0 w0. by eexists _, _.
Defined.

(** ** The GCS driver: the listing loop, the copies, the snapshot returned *)

Section SyncFurther.
Import driver.
Context (c : Cloud) (gcs : GCS).
Implicit Types (st : SyncState) (items : list (ObjectAttrs + string)).

Lemma listings_app (es es' : list IOEvent) :
  listings (es ++ es') = listings es + listings es'.
Proof. unfold listings. by rewrite filter_app, length_app. Qed.

Lemma objects_read_app (es es' : list IOEvent) :
  objects_read (es ++ es') = objects_read es ++ objects_read es'.
Proof. apply omap_app. Qed.

(** A prefix the listing loop calls itself on is not yet seen, and is the
    prefix of an entry without a name or a marker's name without its slash. *)
Lemma entry_action_cases (seen : gset string) (attrs : ObjectAttrs) (p : string) :
  entry_action seen attrs = Recurse p →
  (p ∉ seen)
  ∧ ((Name attrs = "" ∧ p = Prefix attrs)
     ∨ (GoStrings.HasSuffix (Name attrs) "/" = true
        ∧ p = GoStrings.TrimSuffix (Name attrs) "/")).
Proof.
  unfold entry_action. repeat case_decide; intros [= <-] || done; intuition.
Qed.

(** X9: the guards of the listing loop. It calls itself only on a prefix
    not yet seen, which is the prefix of an entry without a name or the name
    of a marker object without its final slash; and it schedules only
    entries that have a name, under prefix followed by name. *)
Theorem entry_action_guards (seen : gset string) (attrs : ObjectAttrs) :
  (∀ p, entry_action seen attrs = Recurse p →
     (p ∉ seen)
     ∧ ((Name attrs = "" ∧ p = Prefix attrs)
        ∨ (GoStrings.HasSuffix (Name attrs) "/" = true
           ∧ p = GoStrings.TrimSuffix (Name attrs) "/")))
  ∧ (∀ f, entry_action seen attrs = Schedule f →
       Name attrs ≠ "" ∧ f = Prefix attrs +:+ Name attrs).
Proof.
  split; [apply entry_action_cases|].
  unfold entry_action. intros f.
  repeat case_decide; intros [= <-] || done; intuition.
Qed.

(** One copy: the [seen] map is not touched, no listing is started, and the
    object is opened for reading at most once, and once when the copy
    succeeds. *)
Lemma syncGSFile_effect (filePath : string) st :
  ∃ es, trace (syncGSFile c gcs filePath st).2 = trace st ++ es
        ∧ seen (syncGSFile c gcs filePath st).2 = seen st
        ∧ listings es = 0
        ∧ (objects_read es = [] ∧ is_Some (syncGSFile c gcs filePath st).1
           ∨ objects_read es = [filePath]).
Proof.
  unfold syncGSFile.
  destruct (OpenFile c _) as [e|]; simpl.
  { eexists. split; [done|]. split; [done|]. split; [done|]. left. by split. }
  destruct (NewReader c _ _) as [e|]; simpl.
  { eexists. rewrite <- app_assoc. split; [done|]. split; [done|].
    split; [done|]. by right. }
  destruct (Copy c _) as [e|]; simpl.
  { eexists. rewrite <- !app_assoc. split; [done|]. split; [done|].
    split; [done|]. by right. }
  destruct (Close c _) as [e|]; simpl;
    eexists; rewrite <- !app_assoc; (split; [done|]); (split; [done|]);
    (split; [done|]); by right.
Qed.

Lemma sync_files_effect (filesToSync : list string) st :
  ∃ es n,
    trace (sync_files c gcs filesToSync st).2 = trace st ++ es
    ∧ seen (sync_files c gcs filesToSync st).2 = seen st
    ∧ listings es = 0
    ∧ n ≤ length filesToSync
    ∧ objects_read es = take n filesToSync
    ∧ ((sync_files c gcs filesToSync st).1 = None → n = length filesToSync).
Proof.
  revert st. induction filesToSync as [|f rest IH]; intros st; simpl.
  - exists [], 0. rewrite app_nil_r. done.
  - destruct (syncGSFile_effect f st) as (es & Htr & Hseen & Hls & Hread).
    destruct (syncGSFile c gcs f st) as [[e|] st1] eqn:Hf; simpl in *.
    + destruct Hread as [[Hread _]|Hread].
      * exists es, 0. rewrite Hread. repeat split; try done. lia.
      * exists es, 1. rewrite Hread. repeat split; try done. lia.
    + destruct Hread as [[_ [? [=]]]|Hread].
      destruct (IH st1) as (es' & n & Htr' & Hseen' & Hls' & Hn & Hread' & Hnone).
      exists (es ++ es'), (S n).
      rewrite Htr', Htr, Hseen', Hseen, listings_app, objects_read_app, Hls, Hls',
        Hread, Hread', app_assoc.
      repeat split; try done; [lia|]. intros Hok. by rewrite Hnone.
Qed.

(** X10: the copies are made in the order scheduled and stop at the first
    that fails: the objects opened for reading are an initial part of the
    files scheduled, all of them when no error is returned, and an error
    carries the prefix of the copy loop. *)
Theorem sync_files_in_order (filesToSync : list string) st :
  ∃ n, n ≤ length filesToSync
       ∧ objects_read (trace (sync_files c gcs filesToSync st).2)
         = objects_read (trace st) ++ take n filesToSync
       ∧ ((sync_files c gcs filesToSync st).1 = None → n = length filesToSync)
       ∧ (∀ e, (sync_files c gcs filesToSync st).1 = Some e →
               GoStrings.HasPrefix e "synching file: " = true).
Proof.
  destruct (sync_files_effect filesToSync st)
    as (es & n & Htr & _ & _ & Hn & Hread & Hnone).
  exists n. rewrite Htr, objects_read_app, Hread. repeat split; try done.
  clear. revert st. induction filesToSync as [|f rest IH]; intros st e; simpl; [done|].
  destruct (syncGSFile c gcs f st) as [[e'|] st1]; simpl.
  - by intros [= <-].
  - apply IH.
Qed.

End SyncFurther.

Lemma size_difference_new (U S : gset string) (p : string) :
  p ∈ U → p ∉ S → size (U ∖ ({[p]} ∪ S)) < size (U ∖ S).
Proof.
  intros HU HS. apply subset_size. split.
  - intros x. rewrite !elem_of_difference, elem_of_union. tauto.
  - intros Hsub. specialize (Hsub p). rewrite !elem_of_difference in Hsub.
    destruct Hsub as [_ Hsub]; [done|]. apply Hsub, elem_of_union_l.
    by apply elem_of_singleton.
Qed.

Lemma size_difference_mono (U S S' : gset string) :
  S ⊆ S' → size (U ∖ S') ≤ size (U ∖ S).
Proof.
  intros Hsub. apply subseteq_size. intros x. rewrite !elem_of_difference.
  intros [Hx Hnot]. split; [done|]. intros Hin. by apply Hnot, Hsub.
Qed.

Section SyncRecursion.
Import driver.
Context (c : Cloud) (gcs : GCS).
Implicit Types (st : SyncState) (items : list (ObjectAttrs + string)).

Lemma extends_refl st : extends st st.
Proof. exists []. rewrite app_nil_r. unfold listings. simpl. split_and!; [done..|lia]. Qed.

Lemma extends_trans st1 st2 st3 : extends st1 st2 → extends st2 st3 → extends st1 st3.
Proof.
  intros (es & Htr & Hsub & Hsize) (es' & Htr' & Hsub' & Hsize').
  exists (es ++ es'). rewrite Htr', Htr, app_assoc, listings_app.
  split_and!; [done|set_solver|lia].
Qed.

Lemma sync_files_extends (filesToSync : list string) st :
  extends st (sync_files c gcs filesToSync st).2.
Proof.
  destruct (sync_files_effect c gcs filesToSync st)
    as (es & n & Htr & Hseen & Hls & _).
  exists es. rewrite Hseen, Hls. split_and!; [done|done|lia].
Qed.

Lemma first_listing_extends prefix st :
  prefix ∉ seen st →
  extends st {| seen := {[prefix]} ∪ seen st;
                trace := trace st ++ [EvObjects (Bucket gcs)
                                        (GoStrings.TrimPrefix prefix "/")] |}.
Proof.
  intros Hnew. exists [EvObjects (Bucket gcs) (GoStrings.TrimPrefix prefix "/")].
  split_and!; [done|set_solver|]. simpl.
  rewrite size_union by set_solver. rewrite size_singleton.
  unfold listings. simpl. lia.
Qed.

Lemma list_loop_extends
    (rec : string → SyncState → option (Outcome (option string) * SyncState)) :
  (∀ t st out st', t ∉ seen st → rec t st = Some (out, st') →
     extends st st' ∧ t ∈ seen st') →
  ∀ items filesToSync st out st',
    list_loop rec items filesToSync st = Some (out, st') → extends st st'.
Proof.
  intros Hrec. induction items as [|[attrs|e] rest IH];
    intros filesToSync st out st'; simpl.
  - intros [= _ <-]. apply extends_refl.
  - destruct (entry_action (seen st) attrs) as [p| |f] eqn:Hact.
    + apply entry_action_cases in Hact as [Hnew _].
      destruct (rec p st) as [[[err|e] st1]|] eqn:Hcall; [| |done].
      * intros Hrest. eapply extends_trans; [by eapply Hrec|by eapply IH].
      * intros [= _ <-]. by eapply Hrec.
    + apply IH.
    + apply IH.
  - intros [= _ <-]. apply extends_refl.
Qed.

(** X11: a synchronisation lists every prefix at most once. Started on a
    prefix not yet seen, when it returns (or ends the process) it has kept
    the events and the seen prefixes it found, has marked its own prefix
    seen, and has started exactly as many listings as there are prefixes
    newly seen. *)
Theorem syncGCSPrefix_lists_new_prefixes_once fuel prefix st out st' :
  prefix ∉ seen st →
  syncGCSPrefix fuel c gcs prefix st = Some (out, st') →
  prefix ∈ seen st'
  ∧ seen st ⊆ seen st'
  ∧ ∃ es, trace st' = trace st ++ es
          ∧ listings es = size (seen st') - size (seen st).
Proof.
  intros Hnew Hcall.
  assert (Hext : extends st st' ∧ prefix ∈ seen st').
  { revert prefix st out st' Hnew Hcall.
    induction fuel as [|fuel IH]; intros prefix st out st' Hnew; simpl; [done|].
    pose proof (first_listing_extends prefix st Hnew) as Hfirst.
    destruct (list_loop _ _ _ _) as [[[files|e] st2]|] eqn:Hloop; [| |done].
    - destruct (sync_files c gcs files st2) as [err st3] eqn:Hsync.
      intros [= _ <-].
      pose proof (list_loop_extends _ IH _ _ _ _ _ Hloop) as Hloop'.
      pose proof (sync_files_extends files st2) as Hcopy. rewrite Hsync in Hcopy.
      split.
      + exact (extends_trans _ _ _ Hfirst (extends_trans _ _ _ Hloop' Hcopy)).
      + destruct Hloop' as (_ & _ & Hsub & _), Hcopy as (_ & _ & Hsub' & _).
        apply Hsub', Hsub. simpl. apply elem_of_union_l, elem_of_singleton. done.
    - intros [= _ <-].
      pose proof (list_loop_extends _ IH _ _ _ _ _ Hloop) as Hloop'.
      split; [exact (extends_trans _ _ _ Hfirst Hloop')|].
      destruct Hloop' as (_ & _ & Hsub & _).
      apply Hsub. simpl. apply elem_of_union_l, elem_of_singleton. done. }
  destruct Hext as [(es & Htr & Hsub & Hsize) Hin].
  split; [done|]. split; [done|]. exists es. split; [done|lia].
Qed.

(** X12: the recursion ends. When every prefix that the listings of the
    bucket can send the loop into lies in a finite set [U], the call returns
    (or ends the process) within a depth of one more than the prefixes of
    [U] not yet seen. *)
Theorem syncGCSPrefix_terminates (U : gset string) fuel prefix st :
  (∀ query attrs, inl attrs ∈ Objects c (Bucket gcs) query →
     (Name attrs = "" → Prefix attrs ∈ U)
     ∧ (GoStrings.HasSuffix (Name attrs) "/" = true →
        GoStrings.TrimSuffix (Name attrs) "/" ∈ U)) →
  size (U ∖ ({[prefix]} ∪ seen st)) < fuel →
  ∃ out st', syncGCSPrefix fuel c gcs prefix st = Some (out, st').
Proof.
  intros HU Hfuel.
  cut (∃ out st', syncGCSPrefix fuel c gcs prefix st = Some (out, st')
                  ∧ seen st ⊆ seen st').
  { intros (out & st' & Hcall & _). by exists out, st'. }
  revert prefix st Hfuel.
  induction fuel as [|fuel IH]; intros prefix st Hfuel; [lia|]. simpl.
  set (st1 := {| seen := {[prefix]} ∪ seen st;
                 trace := trace st ++ [EvObjects (Bucket gcs)
                                         (GoStrings.TrimPrefix prefix "/")] |}).
  assert (Hloop : ∀ items filesToSync s,
             (∀ attrs, inl attrs ∈ items →
                (Name attrs = "" → Prefix attrs ∈ U)
                ∧ (GoStrings.HasSuffix (Name attrs) "/" = true →
                   GoStrings.TrimSuffix (Name attrs) "/" ∈ U)) →
             size (U ∖ seen s) ≤ fuel →
             ∃ out s', list_loop (syncGCSPrefix fuel c gcs) items filesToSync s
                       = Some (out, s') ∧ seen s ⊆ seen s').
  { induction items as [|[attrs|e] rest IHitems];
      intros filesToSync s Hitems Hsize; simpl.
    - by eexists _, _.
    - assert (Hrest : ∀ a, inl a ∈ rest →
                (Name a = "" → Prefix a ∈ U)
                ∧ (GoStrings.HasSuffix (Name a) "/" = true →
                   GoStrings.TrimSuffix (Name a) "/" ∈ U)).
      { intros a Ha. apply Hitems. by right. }
      destruct (entry_action (seen s) attrs) as [p| |f] eqn:Hact.
      + apply entry_action_cases in Hact as [Hnew Hwhich].
        assert (HpU : p ∈ U).
        { destruct (Hitems attrs) as [Hu1 Hu2]; [by left|].
          destruct Hwhich as [[Hname ->]|[Hsuf ->]]; auto. }
        destruct (IH p s) as (out & s1 & Hcall & Hsub).
        { apply Nat.lt_le_trans with (size (U ∖ seen s)); [|done].
          by apply size_difference_new. }
        rewrite Hcall. destruct out as [err|e].
        * destruct (IHitems filesToSync s1 Hrest) as (out' & s2 & Hl & Hsub').
          { etrans; [|exact Hsize]. by apply size_difference_mono. }
          exists out', s2. split; [done|]. by etrans.
        * by eexists _, _.
      + by apply IHitems.
      + by apply IHitems.
    - by eexists _, _. }
  destruct (Hloop (Objects c (Bucket gcs) (GoStrings.TrimPrefix prefix "/")) [] st1)
    as (out & st2 & Hl & Hsub).
  { intros attrs Hin. by eapply HU. }
  { simpl. lia. }
  rewrite Hl. destruct out as [files|e].
  - destruct (sync_files c gcs files st2) as [err st3] eqn:Hsync.
    exists (Return err), st3. split; [done|].
    pose proof (sync_files_effect c gcs files st2) as (_ & _ & _ & Hseen & _).
    rewrite Hsync in Hseen. simpl in Hseen. rewrite Hseen.
    etrans; [|exact Hsub]. apply union_subseteq_r.
  - exists (Fatal e), st2. split; [done|].
    etrans; [|exact Hsub]. apply union_subseteq_r.
Qed.

End SyncRecursion.

(** The nested bucket: two prefixes seen, two listings, the deeper object first. *)
Example syncGCSPrefix_nested_bucket :
  (λ r, (r.1, size (driver.seen r.2), objects_read (driver.trace r.2),
         listings (driver.trace r.2)))
    <$> driver.syncGCSPrefix 2 nested_bucket build_store "build/" fresh_state
  = Some (driver.Return None, 2, ["build/sub/lib.so"; "build/app"], 2).
Proof. vm_compute. reflexivity. Qed.

Lemma syncGCSPrefix_lists_new_prefixes_once_witness :
  match driver.syncGCSPrefix 2 nested_bucket build_store "build/" fresh_state with
  | Some (_, st') =>
      "build/" ∈ driver.seen st'
      ∧ driver.seen fresh_state ⊆ driver.seen st'
      ∧ ∃ es, driver.trace st' = driver.trace fresh_state ++ es
              ∧ listings es = size (driver.seen st') - size (driver.seen fresh_state)
  | None => False
  end.
Proof.
  destruct (driver.syncGCSPrefix 2 nested_bucket build_store "build/" fresh_state)
    as [[out st']|] eqn:Hcall.
  - refine (syncGCSPrefix_lists_new_prefixes_once nested_bucket build_store
              2 "build/" fresh_state out st' _ Hcall).
    apply not_elem_of_empty.
  - vm_compute in Hcall. discriminate.
Defined.

Lemma syncGCSPrefix_terminates_witness :
  ∃ out st',
    driver.syncGCSPrefix 2 nested_bucket build_store "build/" fresh_state
    = Some (out, st').
Proof.
  apply (syncGCSPrefix_terminates nested_bucket build_store {[ "build/sub/" ]}).
  - intros query attrs. simpl.
    destruct (decide (query = "build/")); [|destruct (decide (query = "build/sub/"))].
    + intros [[= ->]|[[= ->]|[]%elem_of_nil]%elem_of_cons]%elem_of_cons.
      * split; [intros _; by apply elem_of_singleton|by intros [=]].
      * split; [by intros [=]|by intros [=]].
    + intros [[= ->]|[]%elem_of_nil]%elem_of_cons.
      split; [by intros [=]|by intros [=]].
    + by intros []%elem_of_nil.
  - apply Nat.le_lt_trans with (size ({[ "build/sub/" ]} : gset string)).
    + apply subseteq_size, subseteq_difference_l. done.
    + rewrite size_singleton. lia.
Defined.

Section SnapFurther.
Context (o : RangeOrder) (c : driver.Cloud) (gcs : driver.GCS).

(** The identity under which Snap stores an artifact of the work directory. *)
Lemma rewrite_paths_entries (snapDir : Snapshot) path a :
  driver.rewrite_paths o c gcs snapDir !! path = Some a →
  ∃ k d, snapDir !! k = Some d
         ∧ path = "gs://" +:+ driver.filepath_Join c (driver.Bucket gcs)
                                (GoStrings.TrimPrefix (Path d) (driver.WorkDir gcs))
         ∧ a = {| Path := path; Time := Time d; Checksum := Checksum d |}.
Proof.
  unfold driver.rewrite_paths.
  assert (Hgen : ∀ (entries : list (string * Artifact)) (acc : Snapshot),
             fold_left
               (λ (snap : Snapshot) (entry : string * Artifact),
                  let a := entry.2 in
                  let path := "gs://" +:+
                    (driver.filepath_Join c (driver.Bucket gcs)
                       (GoStrings.TrimPrefix (Path a) (driver.WorkDir gcs))) in
                  <[path := {| Path := path; Time := Time a;
                               Checksum := Checksum a |}]> snap)
               entries acc !! path = Some a →
             acc !! path = Some a
             ∨ ∃ e, e ∈ entries
                    ∧ path = "gs://" +:+ driver.filepath_Join c (driver.Bucket gcs)
                               (GoStrings.TrimPrefix (Path e.2) (driver.WorkDir gcs))
                    ∧ a = {| Path := path; Time := Time e.2; Checksum := Checksum e.2 |}).
  { induction entries as [|e rest IH]; intros acc; simpl; [by left|].
    intros [Hacc|(e' & Hin & Hpath & Ha)]%IH.
    - apply lookup_insert_Some in Hacc as [[<- <-]|[_ Hacc]]; [|by left].
      right. exists e. split; [by left|done].
    - right. exists e'. split; [by right|done]. }
  intros [Hempty|([k d] & Hin & Hpath & Ha)]%Hgen.
  - by rewrite lookup_empty in Hempty.
  - apply elem_of_range in Hin. by exists k, d.
Qed.

(** X13: what Snap returns. A snapshot comes with a nil error and an error
    with a nil snapshot; a snapshot is returned only for a store with a path
    and a bucket, holds every artifact under its own [Path], which starts
    with the gs scheme, and each artifact carries the time and the checksums
    of an artifact that the Directory driver found in the work directory. *)
Theorem Snap_result_shape fuel r events :
  driver.Snap o fuel c gcs = Some (driver.Return r, events) →
  (is_Some r.1 ↔ r.2 = None)
  ∧ (∀ snap, r.1 = Some snap →
       driver.Path gcs ≠ "" ∧ driver.Bucket gcs ≠ ""
       ∧ keyed_by_path snap
       ∧ ∀ path a, snap !! path = Some a →
           GoStrings.HasPrefix path "gs://" = true
           ∧ ∃ history snapDir k d,
               driver.DirectorySnap c (driver.WorkDir gcs) history = inl snapDir
               ∧ snapDir !! k = Some d
               ∧ Time a = Time d ∧ Checksum a = Checksum d).
Proof.
  unfold driver.Snap.
  destruct (decide (driver.Path gcs = "")) as [|Hpath].
  { intros [= <- _]. simpl. split; [split; [by intros [? [=]]|done]|done]. }
  destruct (decide (driver.Bucket gcs = "")) as [|Hbucket].
  { intros [= <- _]. simpl. split; [split; [by intros [? [=]]|done]|done]. }
  destruct (driver.syncGCSPrefix _ _ _ _ _) as [[[[e|]|e] st]|]; [| | |done].
  { intros [= <- _]. simpl. split; [split; [by intros [? [=]]|done]|done]. }
  2: { done. }
  destruct (driver.NewDirectory c _) as [e|].
  { intros [= <- _]. simpl. split; [split; [by intros [? [=]]|done]|done]. }
  destruct (driver.DirectorySnap c (driver.WorkDir gcs) _) as [snapDir|e] eqn:Hdir.
  2: { intros [= <- _]. simpl. split; [split; [by intros [? [=]]|done]|done]. }
  intros [= <- _]. simpl. split; [split; [done|by eexists]|].
  intros snap [= <-]. split; [done|]. split; [done|].
  split; [apply rewrite_paths_keyed|].
  intros path a (k & d & Hd & -> & ->)%rewrite_paths_entries. split; [done|].
  by eexists _, snapDir, k, d.
Qed.

End SnapFurther.

Lemma Snap_result_shape_witness :
  match driver.Snap listed 2 nested_bucket build_store with
  | Some (driver.Return r, _) =>
      (is_Some r.1 ↔ r.2 = None)
      ∧ (∀ snap, r.1 = Some snap →
           driver.Path build_store ≠ "" ∧ driver.Bucket build_store ≠ ""
           ∧ keyed_by_path snap
           ∧ ∀ path a, snap !! path = Some a →
               GoStrings.HasPrefix path "gs://" = true
               ∧ ∃ history snapDir k d,
                   driver.DirectorySnap nested_bucket (driver.WorkDir build_store) history
                   = inl snapDir
                   ∧ snapDir !! k = Some d
                   ∧ Time a = Time d ∧ Checksum a = Checksum d)
  | _ => False
  end.
Proof.
  destruct (driver.Snap listed 2 nested_bucket build_store)
    as [[[r|e] events]|] eqn:Hsnap.
  - exact (Snap_result_shape listed nested_bucket build_store 2 r events Hsnap).
  - vm_compute in Hsnap. discriminate.
  - vm_compute in Hsnap. discriminate.
Defined.

(** The snapshot of the nested bucket: the file of the work directory under
    its identity in the bucket. *)
Example Snap_nested_bucket :
  (λ r, match r.1 with
        | driver.Return (Some snap, None) => Path <$> (map_to_list snap).*2
        | _ => []
        end) <$> driver.Snap listed 2 nested_bucket build_store
  = Some ["gs://releases/build/app"].
Proof. vm_compute. reflexivity. Qed.

(** ** The start command *)

(** X14: the options are accepted exactly when a clone, if requested, comes
    with a repository and a repository path; without [--clone] they are
    always accepted. *)
Theorem Validate_accepts_iff (opts : cmd.startAttestationOptions) :
  cmd.Validate opts = None
  ↔ (cmd.clone opts = true → cmd.repo opts ≠ "" ∧ cmd.repoPath opts ≠ "").
Proof.
  unfold cmd.Validate.
  destruct (cmd.clone opts); simpl; [|by split].
  destruct (decide (cmd.repo opts = "")) as [Hrepo|Hrepo].
  { rewrite bool_decide_eq_true_2 by done. split; [done|]. intros H.
    by destruct (H eq_refl). }
  rewrite bool_decide_eq_false_2 by done.
  destruct (decide (cmd.repoPath opts = "")) as [Hpath|Hpath].
  { rewrite bool_decide_eq_true_2 by done. split; [done|]. intros H.
    by destruct (H eq_refl). }
  by rewrite bool_decide_eq_false_2 by done.
Qed.

Lemma Cut_at_sign (s : string) :
  let '(before, after, found) := GoStrings.Cut s "@" in
  GoStrings.occurs "@" before = false
  ∧ (if found then s = before +:+ "@" +:+ after
     else before = s ∧ after = "" ∧ GoStrings.occurs "@" s = false).
Proof.
  induction s as [|a s IH].
  - done.
  - cbn [GoStrings.Cut]. rewrite HasPrefix_at_sign.
    destruct (decide (a = "@"%char)) as [->|Hne].
    + done.
    + rewrite bool_decide_eq_false_2 by done.
      destruct (GoStrings.Cut s "@") as [[before after] found].
      destruct IH as [Hocc Hfound]. simpl.
      rewrite decide_False by done. split; [done|].
      destruct found.
      * by rewrite Hfound at 1.
      * destruct Hfound as (-> & -> & Hs). by rewrite decide_False by done.
Qed.

(** X15: the material keeps the whole locator. Its URI holds no [@]; either
    the locator holds none, and is the URI, with an empty digest map; or the
    digest map is the single entry sha1, and URI, [@] and that digest spell
    the locator again (so a locator ending in [@] gives an empty digest, and
    one starting with it an empty URI). *)
Theorem vcs_material_keeps_locator (vcsURL : string) :
  GoStrings.occurs "@" (cmd.URI (cmd.vcs_material vcsURL)) = false
  ∧ ((GoStrings.occurs "@" vcsURL = false
      ∧ cmd.vcs_material vcsURL = {| cmd.URI := vcsURL; cmd.Digest := ∅ |})
     ∨ ∃ digest,
         cmd.Digest (cmd.vcs_material vcsURL) = {[ "sha1" := digest ]}
         ∧ vcsURL = cmd.URI (cmd.vcs_material vcsURL) +:+ "@" +:+ digest).
Proof.
  unfold cmd.vcs_material. pose proof (Cut_at_sign vcsURL) as Hcut.
  destruct (GoStrings.Cut vcsURL "@") as [[before after] [|]]; simpl.
  - destruct Hcut as [Hocc Heq]. split; [done|]. right. exists after.
    by rewrite insert_empty.
  - destruct Hcut as (_ & -> & _ & Hocc). split; [done|]. by left.
Qed.

Example vcs_material_edges :
  cmd.vcs_material "https://github.com/kubernetes-sigs/tejolote@"
  = {| cmd.URI := "https://github.com/kubernetes-sigs/tejolote";
       cmd.Digest := {[ "sha1" := "" ]} |}
  ∧ cmd.vcs_material "git@github.com:kubernetes-sigs/tejolote@5a4bcb8e"
    = {| cmd.URI := "git";
         cmd.Digest := {[ "sha1" := "github.com:kubernetes-sigs/tejolote@5a4bcb8e" ]} |}.
Proof. vm_compute. split; reflexivity. Qed.

Section StartCommand.
Import cmd startcmd.
Context {Store : Type} (W : World Store).
Implicit Types (st : RunState Store) (P : Call → Prop).

Lemma adds_ret {A : Type} P (a : A) : adds P (cret (Store := Store) a).
Proof. intros st. exists []. by rewrite app_nil_r. Qed.

Lemma adds_fail {A : Type} P (e : string) : adds P (cfail (Store := Store) (A := A) e).
Proof. intros st. exists []. by rewrite app_nil_r. Qed.

Lemma adds_call P (c : Call) : P c → adds P (call (Store := Store) c).
Proof. intros Hc st. exists [c]. split; [done|]. by apply Forall_singleton. Qed.

Lemma adds_check P (context : string) (err : option string) :
  adds P (check (Store := Store) context err).
Proof. destruct err; [apply adds_fail|apply adds_ret]. Qed.

Lemma adds_bind {A B : Type} P (m : Cmd Store A) (k : A → Cmd Store B) :
  adds P m → (∀ a, adds P (k a)) → adds P (cbind m k).
Proof.
  intros Hm Hk st. unfold cbind. destruct (Hm st) as (new & Hnew & HP).
  destruct (m st) as [[e|a] st1]; simpl in *; [by exists new|].
  destruct (Hk a st1) as (new' & Hnew' & HP').
  exists (new ++ new'). rewrite Hnew', Hnew, app_assoc. split; [done|].
  by apply Forall_app.
Qed.

Lemma adds_wrap {A : Type} P (m : Cmd Store A) (wrap : string → string) :
  adds P m →
  adds P (λ st, match m st with
                | (inl e, st') => (inl (wrap e), st')
                | (inr a, st') => (inr a, st')
                end).
Proof.
  intros Hm st. destruct (Hm st) as (new & Hnew & HP).
  exists new. by destruct (m st) as [[e|a] st1].
Qed.

Lemma adds_AddArtifactSource P (specURL : string) :
  P (CallStoreNew specURL) → adds P (AddArtifactSource W specURL).
Proof.
  intros HP. unfold AddArtifactSource. apply adds_bind; [by apply adds_call|].
  intros _. destruct (store_New W specURL); [apply adds_fail|].
  intros st. exists []. by rewrite app_nil_r.
Qed.

Lemma adds_add_sources P (uris : list string) :
  (∀ uri, P (CallStoreNew uri)) → adds P (add_sources W uris).
Proof.
  intros HP. induction uris as [|uri rest IH]; simpl; [apply adds_ret|].
  intros st. destruct (adds_AddArtifactSource P uri (HP uri) st) as (new & Hnew & Hall).
  destruct (AddArtifactSource W uri st) as [[e|[]] st1]; simpl in *; [by exists new|].
  destruct (IH st1) as (new' & Hnew' & Hall').
  exists (new ++ new'). rewrite Hnew', Hnew, app_assoc. split; [done|].
  by apply Forall_app.
Qed.

Lemma adds_readVCSURL P (outputOpts : outputOptions) (opts : startAttestationOptions) :
  (repoPath opts ≠ "" → ∀ path, P (CallAbs path) ∧ P (CallProbe path)) →
  adds P (readVCSURL W outputOpts opts).
Proof.
  intros HP. unfold readVCSURL.
  destruct (decide (repoPath opts = "")); [apply adds_ret|].
  apply adds_bind; [apply adds_call, HP; done|]. intros _.
  destruct (filepath_Abs W _); [apply adds_fail|].
  apply adds_bind; [apply adds_call, HP; done|]. intros _.
  destruct (ProbeDirForVCSUrl W _ _); [apply adds_fail|apply adds_ret].
Qed.

(** X16: the artifact sources are opened in the order given and the first
    that fails ends the loop. The stores appended to the watcher are those
    of an initial part of the URLs; on success it is all of them and
    [store.New] was called once for each; on failure the URL after that
    part is the one that failed, no later URL was touched, and the error
    names both wrappers. *)
Theorem add_sources_opens_stores_in_order (uris : list string) st :
  ∃ stores,
    ArtifactStores (add_sources W uris st).2 = ArtifactStores st ++ stores
    ∧ Forall2 (λ uri s, store_New W uri = inr s) (take (length stores) uris) stores
    ∧ match (add_sources W uris st).1 with
      | inr _ =>
          length stores = length uris
          ∧ calls (add_sources W uris st).2 = calls st ++ (CallStoreNew <$> uris)
      | inl err =>
          ∃ uri e,
            uris !! length stores = Some uri
            ∧ store_New W uri = inl e
            ∧ err = "adding artifacts source: getting artifact store: " +:+ e
            ∧ calls (add_sources W uris st).2
              = calls st ++ (CallStoreNew <$> take (S (length stores)) uris)
      end.
Proof.
  revert st. induction uris as [|uri rest IH]; intros st; simpl.
  - exists []. rewrite !app_nil_r. done.
  - unfold AddArtifactSource, cbind, call, cfail.
    destruct (store_New W uri) as [e|s] eqn:Hnew; simpl.
    + exists []. rewrite app_nil_r. simpl. split; [done|]. split; [constructor|].
      by exists uri, e.
    + set (st1 := {| calls := calls st ++ [CallStoreNew uri];
                     ArtifactStores := ArtifactStores st ++ [s] |}).
      destruct (IH st1) as (stores & Hstores & Hall & Hres).
      exists (s :: stores). rewrite Hstores. simpl. rewrite <- app_assoc.
      split; [done|]. split; [by constructor|].
      destruct ((add_sources W rest st1).1) as [err|[]].
      * destruct Hres as (uri' & e & Hlook & Hfail & -> & Hcalls).
        exists uri', e. rewrite Hcalls. simpl. by rewrite <- app_assoc.
      * destruct Hres as [-> ->]. simpl. by rewrite <- app_assoc.
Qed.

(** X17: options that do not validate, or a missing run specification,
    end the command before it touches anything: an error is returned, no
    call has been made and no store added. *)
Theorem RunE_fails_before_any_call
    (opts : startAttestationOptions) (outputOps : outputOptions)
    (args : list string) st :
  Validate opts ≠ None ∨ args = [] →
  ∃ e, RunE W opts outputOps args st = (inl e, st).
Proof.
  unfold RunE, cbind, check, cfail, cret.
  destruct (Validate opts) as [e|]; [by eexists|].
  intros [?| ->]; [done|]. by eexists.
Qed.

(** X18: with [--clone] the command never succeeds and never lets an
    attestation out: it returns an error, and nothing is serialised,
    printed, written or published, whatever the world answers. *)
Theorem RunE_clone_never_succeeds
    (opts : startAttestationOptions) (outputOps : outputOptions)
    (args : list string) st :
  clone opts = true →
  (∃ e, (RunE W opts outputOps args st).1 = inl e)
  ∧ ∃ new, calls (RunE W opts outputOps args st).2 = calls st ++ new
           ∧ Forall (λ c, ¬ emits_attestation c) new.
Proof.
  intros Hclone. split.
  - unfold RunE, cbind, check, call, cfail, cret. rewrite Hclone.
    repeat case_match; simplify_eq/=; by eexists.
  - revert st. change (adds (λ c, ¬ emits_attestation c) (RunE W opts outputOps args)).
    unfold RunE. rewrite Hclone.
    apply adds_bind; [apply adds_check|intros _].
    destruct args as [|arg0 args']; [apply adds_fail|].
    apply adds_bind; [apply adds_call; simpl; tauto|intros _].
    destruct (builder_New W arg0); [apply adds_fail|].
    apply adds_bind; [apply adds_add_sources; simpl; tauto|intros _].
    apply adds_bind; [apply adds_call; simpl; tauto|intros _].
    apply adds_bind; [apply adds_check|intros _].
    apply adds_bind; [|intros _; apply adds_fail].
    repeat case_decide; try apply adds_ret; try (apply adds_call; simpl; tauto).
    apply adds_bind; [apply adds_call; simpl; tauto|intros _]. apply adds_check.
Qed.

Lemma adds_bind_check {B : Type} P (context : string) (err : option string)
    (k : unit → Cmd Store B) :
  (err = None → adds P (k ())) → adds P (cbind (check context err) k).
Proof.
  intros Hk. destruct err as [e|].
  - intros st. exists []. by rewrite app_nil_r.
  - intros st. by apply Hk.
Qed.

Lemma add_sources_success (uris : list string) st :
  (add_sources W uris st).1 = inr () →
  Forall (λ uri, ∃ s, store_New W uri = inr s) uris.
Proof.
  revert st. induction uris as [|uri rest IH]; intros st; simpl; [done|].
  unfold AddArtifactSource, cbind, call, cfail.
  destruct (store_New W uri) as [e|s] eqn:Hnew; simpl; [done|].
  intros Hok. constructor; [by eexists|]. by eapply IH.
Qed.

Lemma adds_bind_add_sources {B : Type} P (uris : list string)
    (k : unit → Cmd Store B) :
  (∀ uri, P (CallStoreNew uri)) →
  (Forall (λ uri, ∃ s, store_New W uri = inr s) uris → adds P (k ())) →
  adds P (cbind (add_sources W uris) k).
Proof.
  intros HP Hk st. unfold cbind.
  destruct (adds_add_sources P uris HP st) as (new & Hnew & Hall).
  pose proof (add_sources_success uris st) as Hok.
  destruct (add_sources W uris st) as [[e|[]] st1]; simpl in *; [by exists new|].
  destruct (Hk (Hok eq_refl) st1) as (new' & Hnew' & Hall').
  exists (new ++ new'). rewrite Hnew', Hnew, app_assoc. split; [done|].
  by apply Forall_app.
Qed.

Lemma adds_bind_call_check {B : Type} P (c : Call) (context : string)
    (err : option string) (k : unit → Cmd Store B) :
  P c →
  (err = None → adds P (k ())) →
  adds P (cbind (cbind (call c) (λ _, check context err)) k).
Proof.
  intros Hc Hk st. unfold cbind, call, check, cfail, cret. destruct err as [e|]; simpl.
  - exists [c]. split; [done|]. by apply Forall_singleton.
  - destruct (Hk eq_refl {| calls := calls st ++ [c];
                            ArtifactStores := ArtifactStores st |})
      as (new & Hnew & Hall).
    exists (c :: new). rewrite Hnew. simpl. rewrite <- app_assoc.
    split; [done|]. by constructor.
Qed.

(** The locator that [RunE] goes on with. *)
Lemma adds_bind_url {B : Type} P (opts : startAttestationOptions)
    (outputOps : outputOptions) (k : string → Cmd Store B) :
  (vcsURL opts = "" → repoPath opts ≠ "" →
   ∀ path, P (CallAbs path) ∧ P (CallProbe path)) →
  (vcsURL opts ≠ "" ∨ repoPath opts = "" → adds P (k (vcsURL opts))) →
  (vcsURL opts = "" → repoPath opts ≠ "" → ∀ url, adds P (k url)) →
  adds P (cbind (if decide (vcsURL opts = "") then
                   λ st, match readVCSURL W outputOps opts st with
                         | (inl e, st') => (inl ("fetching VCS URL: " +:+ e), st')
                         | (inr u, st') => (inr u, st')
                         end
                 else cret (vcsURL opts)) k).
Proof.
  intros HP Hflag Hprobe. destruct (decide (vcsURL opts = "")) as [Hempty|Hset].
  - destruct (decide (repoPath opts = "")) as [Hnone|Hpath].
    + unfold readVCSURL. rewrite decide_True by done.
      intros st. unfold cbind, cret. simpl. rewrite <- Hempty. apply Hflag. by right.
    + apply adds_bind; [|intros url; by apply Hprobe].
      apply adds_wrap, adds_readVCSURL. intros _. by apply HP.
  - intros st. unfold cbind, cret. simpl. apply Hflag. by left.
Qed.

(** The steps of [RunE] from the serialisation on: [Hto] is [P] at the
    serialisation call, [Hout] at the two ways of writing the document,
    [Hpub] at the calls made for a topic. *)
Ltac adds_emit Hto Hout Hpub :=
  let json := fresh "json" in
  let Htopic := fresh "Htopic" in
  let Hex := fresh "Hex" in
  let Hread := fresh "Hread" in
  let Hsend := fresh "Hsend" in
  apply adds_bind; [apply adds_call, Hto|intros _];
  destruct (ToJSON _ _) as [?|json]; [apply adds_fail|];
  apply adds_bind;
    [destruct (Hout json); case_decide; by apply adds_call|intros _];
  case_decide as Htopic; [|apply adds_ret];
  destruct (Hpub Htopic) as (Hex & Hread & Hsend);
  apply adds_bind; [by apply adds_call|intros _];
  apply adds_bind;
    [destruct (Exists _ _); [|apply adds_ret];
     apply adds_bind; [by apply adds_call|intros _];
     destruct (ReadFile _ _); [apply adds_fail|apply adds_ret]
    |intros ?; cbv zeta;
     apply adds_bind; [by apply adds_call|intros _]; apply adds_check].

(** The steps of [RunE] up to the [--clone] test. [Hgo] is what the rest of
    the command has to give once these have succeeded. *)
Lemma adds_RunE P (opts : startAttestationOptions) (outputOps : outputOptions)
    (args : list string) :
  (∀ uri, P (CallBuilderNew uri) ∧ P (CallStoreNew uri)) →
  P CallSnap →
  (∀ msg, P (CallWarning msg)) →
  (∀ path, P (CallSaveSnapshots path)) →
  (Validate opts = None →
   clone opts = false →
   Snap W = None →
   Forall (λ uri, ∃ s, store_New W uri = inr s) (artifacts opts) →
   (FinalSnapshotStatePath W outputOps (OutputPath outputOps) ≠ "" →
    SaveSnapshots W (FinalSnapshotStatePath W outputOps (OutputPath outputOps)) = None) →
   (∃ arg0 rest specURL, args = arg0 :: rest ∧ builder_New W arg0 = inr specURL) →
   (vcsURL opts = "" → repoPath opts ≠ "" →
    ∀ path, P (CallAbs path) ∧ P (CallProbe path))
   ∧ (∀ url, (vcsURL opts ≠ "" ∨ repoPath opts = "" → url = vcsURL opts) →
        P (CallToJSON (add_vcs_material url (NewSLSAPredicate W))))
   ∧ (∀ json, P (CallPrintln json) ∧ P (CallWriteFile (OutputPath outputOps) json))
   ∧ (pubsub opts ≠ "" →
      ∀ path, P (CallExists path) ∧ P (CallReadFile path)
              ∧ ∀ message, P (CallPublish (pubsub opts) message))) →
  adds P (RunE W opts outputOps args).
Proof.
  intros Hopen Hsnap Hwarn Hsave Hgo. unfold RunE.
  apply adds_bind_check; intros Hvalid.
  destruct args as [|arg0 rest]; [apply adds_fail|].
  apply adds_bind; [apply adds_call, Hopen|intros _].
  destruct (builder_New W arg0) as [e|specURL] eqn:Hbuilder; [apply adds_fail|].
  apply adds_bind_add_sources; [apply Hopen|intros Hstores].
  apply adds_bind; [by apply adds_call|intros _].
  apply adds_bind_check; intros Hsnapped. cbv zeta.
  set (statePath := FinalSnapshotStatePath W outputOps (OutputPath outputOps)).
  destruct (decide (statePath = "")) as [Hnone|Hpath].
  - apply adds_bind.
    { case_decide; [by apply adds_call|apply adds_ret]. }
    intros _. destruct (clone opts) eqn:Hclone; [apply adds_fail|].
    destruct Hgo as (Hprobe & Hto & Hout & Hpub); try done; [by eexists _, _, _|].
    apply adds_bind_url; [done| |].
    + intros Hflag.
      assert (Hto' := Hto (vcsURL opts) (λ _, eq_refl)).
      assert (Hpub' := λ Htopic, Hpub Htopic statePath).
      adds_emit Hto' Hout Hpub'.
    + intros Hempty Hrepo url.
      assert (Hto' : P (CallToJSON (add_vcs_material url (NewSLSAPredicate W))))
        by (apply Hto; tauto).
      assert (Hpub' := λ Htopic, Hpub Htopic statePath).
      adds_emit Hto' Hout Hpub'.
  - apply adds_bind_call_check; [done|intros Hsaved].
    destruct (clone opts) eqn:Hclone; [apply adds_fail|].
    destruct Hgo as (Hprobe & Hto & Hout & Hpub); try done; [by eexists _, _, _|].
    apply adds_bind_url; [done| |].
    + intros Hflag.
      assert (Hto' := Hto (vcsURL opts) (λ _, eq_refl)).
      assert (Hpub' := λ Htopic, Hpub Htopic statePath).
      adds_emit Hto' Hout Hpub'.
    + intros Hempty Hrepo url.
      assert (Hto' : P (CallToJSON (add_vcs_material url (NewSLSAPredicate W))))
        by (apply Hto; tauto).
      assert (Hpub' := λ Htopic, Hpub Htopic statePath).
      adds_emit Hto' Hout Hpub'.
Qed.

(** X19: a locator given with [--vcs-url] is taken as it is. When the flag
    is set (or no repository path is given either) the command never looks
    at the checkout, and the only predicate it serialises is the initial one
    with the material of that locator added. *)
Theorem RunE_vcs_flag_decides_material
    (opts : startAttestationOptions) (outputOps : outputOptions)
    (args : list string) st :
  vcsURL opts ≠ "" ∨ repoPath opts = "" →
  ∃ new, calls (RunE W opts outputOps args st).2 = calls st ++ new
         ∧ Forall (λ c, ¬ probes_checkout c
                        ∧ ∀ p, c = CallToJSON p →
                               p = add_vcs_material (vcsURL opts) (NewSLSAPredicate W))
                  new.
Proof.
  intros Hflag. revert st.
  apply (adds_RunE (λ c, ¬ probes_checkout c
                         ∧ ∀ p, c = CallToJSON p →
                                p = add_vcs_material (vcsURL opts) (NewSLSAPredicate W)));
    simpl; try (by repeat split; try tauto; intros ? [=]).
  intros _ _ _ _ _ _. split; [tauto|]. split.
  - intros url Hurl. split; [tauto|]. intros p [= <-]. by rewrite Hurl.
  - by repeat split; try tauto; intros ? [=].
Qed.

(** X20: without [--pubsub] nothing is published: the command neither looks
    for the saved snapshots, nor reads them, nor sends a message. *)
Theorem RunE_without_topic_publishes_nothing
    (opts : startAttestationOptions) (outputOps : outputOptions)
    (args : list string) st :
  pubsub opts = "" →
  ∃ new, calls (RunE W opts outputOps args st).2 = calls st ++ new
         ∧ Forall (λ c, ¬ publishes c) new.
Proof.
  intros Hnone. revert st.
  apply (adds_RunE (λ c, ¬ publishes c)); simpl; tauto.
Qed.

(** X21: a document is serialised only after the stores were snapshotted.
    Whenever the command reaches the serialisation of the predicate, the
    options validated, no clone was asked for, the builder of the first
    argument was made, every artifact source was opened, the snapshot
    succeeded and, if there is a state path, the snapshots were saved. *)
Theorem RunE_serialises_after_snapshots
    (opts : startAttestationOptions) (outputOps : outputOptions)
    (args : list string) st :
  ∃ new, calls (RunE W opts outputOps args st).2 = calls st ++ new
         ∧ ∀ p, CallToJSON p ∈ new →
             Validate opts = None
             ∧ clone opts = false
             ∧ (∃ arg0 rest specURL,
                  args = arg0 :: rest ∧ builder_New W arg0 = inr specURL)
             ∧ Forall (λ uri, ∃ s, store_New W uri = inr s) (artifacts opts)
             ∧ Snap W = None
             ∧ (FinalSnapshotStatePath W outputOps (OutputPath outputOps) ≠ "" →
                SaveSnapshots W (FinalSnapshotStatePath W outputOps (OutputPath outputOps))
                = None).
Proof.
  set (Q := Validate opts = None
            ∧ clone opts = false
            ∧ (∃ arg0 rest specURL,
                 args = arg0 :: rest ∧ builder_New W arg0 = inr specURL)
            ∧ Forall (λ uri, ∃ s, store_New W uri = inr s) (artifacts opts)
            ∧ Snap W = None
            ∧ (FinalSnapshotStatePath W outputOps (OutputPath outputOps) ≠ "" →
               SaveSnapshots W (FinalSnapshotStatePath W outputOps (OutputPath outputOps))
               = None)).
  assert (Hadds : adds (λ c, ∀ p, c = CallToJSON p → Q) (RunE W opts outputOps args)).
  { apply adds_RunE.
    - intros uri. split; intros p [=].
    - intros p [=].
    - intros msg p [=].
    - intros path p [=].
    - intros Hvalid Hclone Hsnap Hstores Hsaved Hbuilder.
      split; [intros _ _ path; split; intros p [=]|].
      split; [intros url _ p _; by unfold Q|].
      split; [intros json; split; intros p [=]|].
      intros _ path.
      split; [intros p [=]|split; [intros p [=]|intros message p [=]]]. }
  destruct (Hadds st) as (new & Hnew & Hall). exists new. split; [done|].
  intros p Hin. rewrite Forall_forall in Hall. by eapply Hall.
Qed.

End StartCommand.

(** The command without a run specification. *)
Lemma RunE_fails_before_any_call_witness :
  ∃ e, startcmd.RunE calm_world start_options to_file [] no_calls = (inl e, no_calls).
Proof.
  apply (RunE_fails_before_any_call calm_world start_options to_file [] no_calls).
  by right.
Defined.

Lemma RunE_clone_never_succeeds_witness :
  (∃ e, (startcmd.RunE calm_world clone_options to_file ["gcb://project/build"]
           no_calls).1 = inl e)
  ∧ ∃ new,
      startcmd.calls
        (startcmd.RunE calm_world clone_options to_file ["gcb://project/build"]
           no_calls).2
      = startcmd.calls no_calls ++ new
      ∧ Forall (λ c, ¬ emits_attestation c) new.
Proof.
  exact (RunE_clone_never_succeeds calm_world clone_options to_file
           ["gcb://project/build"] no_calls eq_refl).
Defined.

Lemma RunE_vcs_flag_decides_material_witness :
  ∃ new,
    startcmd.calls
      (startcmd.RunE calm_world start_options to_file ["gcb://project/build"]
         no_calls).2
    = startcmd.calls no_calls ++ new
    ∧ Forall (λ c, ¬ probes_checkout c
                   ∧ ∀ p, c = startcmd.CallToJSON p →
                          p = cmd.add_vcs_material (cmd.vcsURL start_options)
                                (startcmd.NewSLSAPredicate calm_world))
             new.
Proof.
  apply (RunE_vcs_flag_decides_material calm_world start_options to_file
           ["gcb://project/build"] no_calls).
  by left.
Defined.

Lemma RunE_without_topic_publishes_nothing_witness :
  ∃ new,
    startcmd.calls
      (startcmd.RunE calm_world start_options to_file ["gcb://project/build"]
         no_calls).2
    = startcmd.calls no_calls ++ new
    ∧ Forall (λ c, ¬ publishes c) new.
Proof.
  exact (RunE_without_topic_publishes_nothing calm_world start_options to_file
           ["gcb://project/build"] no_calls eq_refl).
Defined.

(** A whole run: two artifact sources, a locator given by flag, output to
    a file. *)
Example RunE_calm_run :
  startcmd.RunE calm_world start_options to_file ["gcb://project/build"] no_calls
  = (inr (),
     {| startcmd.calls :=
          [ startcmd.CallBuilderNew "gcb://project/build";
            startcmd.CallStoreNew "file:///out";
            startcmd.CallStoreNew "gs://releases/build/";
            startcmd.CallSnap;
            startcmd.CallSaveSnapshots "att.json.storage-snap.json";
            startcmd.CallToJSON
              {| cmd.Materials :=
                   [ {| cmd.URI := "https://github.com/kubernetes-sigs/tejolote";
                        cmd.Digest := {[ "sha1" := "5a4bcb8e" ]} |} ] |};
            startcmd.CallWriteFile "att.json" "{materials}" ];
        startcmd.ArtifactStores := ["file:///out"; "gs://releases/build/"] |}).
Proof. vm_compute. reflexivity. Qed.

(** With [--clone] the stores are snapshotted and the state saved before
    the command gives up. *)
Example RunE_clone_run :
  startcmd.RunE calm_world clone_options to_file ["gcb://project/build"] no_calls
  = (inl "repository cloning not yet implemented",
     {| startcmd.calls :=
          [ startcmd.CallBuilderNew "gcb://project/build";
            startcmd.CallSnap;
            startcmd.CallSaveSnapshots "att.json.storage-snap.json" ];
        startcmd.ArtifactStores := [] |}).
Proof. vm_compute. reflexivity. Qed.

(** ** Errors of the recursive calls *)

Section NestedErrors.
Import driver.
Context (c : Cloud) (gcs : GCS).

(** X22: the listing loop drops the error of a recursive call. Whatever a
    synchronisation of a sub-prefix returns as its error, the loop goes on
    as after a nil one: with a recursive call that does the same but
    reports no error, the files scheduled, the state and the outcome of the
    loop are the same. *)
Theorem list_loop_drops_nested_errors
    (rec : string → SyncState → option (Outcome (option string) * SyncState))
    (items : list (ObjectAttrs + string)) (filesToSync : list string)
    (st : SyncState) :
  list_loop rec items filesToSync st
  = list_loop (without_error rec) items filesToSync st.
Proof.
  revert filesToSync st.
  induction items as [|[attrs|e] rest IH]; intros filesToSync st; simpl; [done| |done].
  destruct (entry_action (seen st) attrs) as [p| |f]; [|apply IH|apply IH].
  unfold without_error at 1.
  destruct (rec p st) as [[[err|e] st1]|]; [apply IH|done|done].
Qed.

End NestedErrors.

(** The library under [build/sub/] cannot be read: the synchronisation of
    [build/] returns nil all the same, and Snap returns a snapshot. *)
Example syncGCSPrefix_unreadable_nested_object :
  (fst <$> driver.syncGCSPrefix 2 unreadable_lib build_store "build/" fresh_state)
  = Some (driver.Return None)
  ∧ (fst <$> driver.syncGCSPrefix 1 unreadable_lib build_store "build/sub/" fresh_state)
    = Some (driver.Return
              (Some "synching file: creating bucket reader: storage: object doesn't exist")).
Proof. vm_compute. split; reflexivity. Qed.
